(** * MAVLink CRC-extra calculator: a shallow embedding of
      [tools/mavlink_json_generator/crc_calculator.py]

    The Python module computes the MAVLink "CRC extra" of a message
    definition and the byte offsets of its fields.  Every function of the
    module is embedded below under its own name:

    - Python [int] is [Z]; the bit operators [&], [^], [<<], [>>] are
      [Z.land], [Z.lxor], [Z.shiftl], [Z.shiftr] (both sides work on the
      infinite two's complement representation);
    - Python [str] is a list of code points ([str]), [bytes] is
      [list Byte.byte];
    - a raised exception is the [Raise] branch of [result];
    - a field dictionary is the record [field]. *)

From Stdlib Require Import ZArith List Bool Lia String Ascii.
From Stdlib.Strings Require Import Byte.
From Stdlib Require Import Permutation Sorted.
From Stdlib Require Decimal DecimalZ.
Import ListNotations.

Local Open Scope Z_scope.

(** ** Python values *)

(** A character is its code point; [ord] reads it as an [int]. *)
Definition char := N.
Definition str := list char.

Definition ord (c : char) : Z := Z.of_N c.

(** String literals of the source, as code point sequences. *)
Definition chr (a : ascii) : char := N_of_ascii a.

Definition pystr (s : string) : str :=
  map N_of_ascii (list_ascii_of_string s).

Fixpoint str_eqb (a b : str) : bool :=
  match a, b with
  | [], [] => true
  | x :: a', y :: b' => N.eqb x y && str_eqb a' b'
  | _, _ => false
  end.

(** [c in s] for a one-character [c]. *)
Definition str_contains (c : char) (s : str) : bool :=
  existsb (N.eqb c) s.

(** Exceptions the module can raise. *)
Inductive exception := ValueError.

Inductive result (A : Type) :=
| Ok (a : A)
| Raise (e : exception).
Arguments Ok {A} a.
Arguments Raise {A} e.

Definition bind {A B} (r : result A) (k : A -> result B) : result B :=
  match r with
  | Ok a => k a
  | Raise e => Raise e
  end.

Notation "x <- r ;; k" := (bind r (fun x => k))
  (at level 61, r at next level, right associativity).

Definition is_ok {A} (r : result A) : Prop := exists a, r = Ok a.

(** ** The CRC-16/MCRF4XX accumulator *)

(** Iterating over a [bytes] object yields ints in [0, 255]. *)
Definition byte_to_int (b : byte) : Z := Z.of_N (Byte.to_N b).

Fixpoint crc16_mcrf4xx (data : list byte) (crc : Z) : Z :=
  match data with
  | [] => crc
  | b :: data' =>
      let byte := byte_to_int b in
      let tmp := Z.lxor byte (Z.land crc 0xFF) in
      let tmp := Z.land (Z.lxor tmp (Z.shiftl tmp 4)) 0xFF in
      let crc :=
        Z.land
          (Z.lxor (Z.lxor (Z.lxor (Z.shiftr crc 8) (Z.shiftl tmp 8))
                          (Z.shiftl tmp 3))
                  (Z.shiftr tmp 4))
          0xFFFF in
      crc16_mcrf4xx data' crc
  end.

Definition accumulate_byte (byte : Z) (crc : Z) : Z :=
  let byte := Z.land byte 0xFF in
  let tmp := Z.lxor byte (Z.land crc 0xFF) in
  let tmp := Z.land (Z.lxor tmp (Z.shiftl tmp 4)) 0xFF in
  let crc :=
    Z.land
      (Z.lxor (Z.lxor (Z.lxor (Z.shiftr crc 8) (Z.shiftl tmp 8))
                      (Z.shiftl tmp 3))
              (Z.shiftr tmp 4))
      0xFFFF in
  crc.

Fixpoint accumulate_string (s : str) (crc : Z) : Z :=
  match s with
  | [] => crc
  | char :: s' => accumulate_string s' (accumulate_byte (ord char) crc)
  end.

(** ** Built-in string operations used by the module *)

(** [s.index(c)]: position of the first [c], [ValueError] when there is
    none. *)
Fixpoint str_index (c : char) (s : str) : result nat :=
  match s with
  | [] => Raise ValueError
  | x :: s' => if N.eqb x c then Ok 0%nat
               else i <- str_index c s' ;; Ok (S i)
  end.

(** [s[start:end]] for non-negative bounds: empty when [end <= start],
    cut at the end of [s]. *)
Definition str_slice (s : str) (start end_ : nat) : str :=
  firstn (end_ - start) (skipn start s).

(** [s.split(c)[0]]: everything before the first [c]. *)
Fixpoint str_before (c : char) (s : str) : str :=
  match s with
  | [] => []
  | x :: s' => if N.eqb x c then [] else x :: str_before c s'
  end.

(** White space that [int] skips at both ends: the ASCII blanks and the
    Unicode space characters above them. *)
Definition is_space (c : char) : bool :=
  ((9 <=? c) && (c <=? 13) || (c =? 32)
   || (c =? 133) || (c =? 160) || (c =? 5760)
   || (8192 <=? c) && (c <=? 8202)
   || (c =? 8232) || (c =? 8233) || (c =? 8239) || (c =? 8287)
   || (c =? 12288))%N.

Fixpoint lstrip (s : str) : str :=
  match s with
  | [] => []
  | c :: s' => if is_space c then lstrip s' else s
  end.

Definition strip (s : str) : str := rev (lstrip (rev (lstrip s))).

(** Value of a decimal digit.  Only the ASCII digits are given a value:
    CPython also reads the decimal digits of other scripts, from a table
    that changes with its Unicode version, and refuses literals of several
    thousand digits.  The properties below are stated on what
    [get_array_length] returns and do not depend on either. *)
Definition digit_value (c : char) : option Z :=
  if ((48 <=? c) && (c <=? 57))%N then Some (Z.of_N c - 48) else None.

(** Digits with single underscores between them ([1_000]); [acc] is the
    value read so far, and the head of [s] follows a digit. *)
Fixpoint int_digits (s : str) (acc : Z) : result Z :=
  match s with
  | [] => Ok acc
  | c :: s' =>
      match digit_value c with
      | Some d => int_digits s' (10 * acc + d)
      | None =>
          if N.eqb c (chr "_") then
            match s' with
            | c' :: _ =>
                match digit_value c' with
                | Some _ => int_digits s' acc
                | None => Raise ValueError
                end
            | [] => Raise ValueError
            end
          else Raise ValueError
      end
  end.

Definition int_unsigned (s : str) : result Z :=
  match s with
  | c :: _ =>
      match digit_value c with
      | Some _ => int_digits s 0
      | None => Raise ValueError
      end
  | [] => Raise ValueError
  end.

(** [int(s)] in base 10: surrounding white space, an optional sign, then
    the digits; anything else is a [ValueError]. *)
Definition int (s : str) : result Z :=
  match strip s with
  | c :: s' =>
      if N.eqb c (chr "-") then v <- int_unsigned s' ;; Ok (- v)
      else if N.eqb c (chr "+") then int_unsigned s'
      else int_unsigned (c :: s')
  | [] => Raise ValueError
  end.

(** [d.get(key, default)] on a dictionary with string keys, kept as the
    list of its items. *)
Fixpoint dict_get {V} (d : list (str * V)) (key : str) (default : V) : V :=
  match d with
  | [] => default
  | (k, v) :: d' => if str_eqb k key then v else dict_get d' key default
  end.

Fixpoint dict_lookup {V} (d : list (str * V)) (key : str) : option V :=
  match d with
  | [] => None
  | (k, v) :: d' => if str_eqb k key then Some v else dict_lookup d' key
  end.

(** [l.sort(key=key, reverse=True)]: a stable sort into descending key
    order.  An element is inserted in front of the first element whose key
    is not larger, so elements of equal key keep their order. *)
Section Sort.
Context {A : Type} (key : A -> Z).

Fixpoint insert_reverse (x : A) (l : list A) : list A :=
  match l with
  | [] => [x]
  | y :: l' => if key x <? key y then y :: insert_reverse x l'
               else x :: l
  end.

Fixpoint sort_reverse (l : list A) : list A :=
  match l with
  | [] => []
  | x :: l' => insert_reverse x (sort_reverse l')
  end.
End Sort.

(** ** Type strings *)

(** MAVLink type sizes (in bits) for field ordering. *)
Definition TYPE_BITS : list (str * Z) :=
  [ (pystr "int8_t", 8);
    (pystr "uint8_t", 8);
    (pystr "char", 8);
    (pystr "int16_t", 16);
    (pystr "uint16_t", 16);
    (pystr "int32_t", 32);
    (pystr "uint32_t", 32);
    (pystr "float", 32);
    (pystr "int64_t", 64);
    (pystr "uint64_t", 64);
    (pystr "double", 64) ].

Definition get_base_type (type_str : str) : str :=
  if str_eqb type_str (pystr "uint8_t_mavlink_version") then pystr "uint8_t"
  else if str_contains (chr "[") type_str then str_before (chr "[") type_str
  else type_str.

Definition get_array_length (type_str : str) : result Z :=
  if str_contains (chr "[") type_str then
    i <- str_index (chr "[") type_str ;;
    let start := (i + 1)%nat in
    end_ <- str_index (chr "]") type_str ;;
    int (str_slice type_str start end_)
  else Ok 1.

Definition get_type_bits (type_str : str) : Z :=
  let base_type := get_base_type type_str in
  dict_get TYPE_BITS base_type 8.

Definition get_type_size (type_str : str) : Z :=
  get_type_bits type_str / 8.

(** ** Fields *)

(** A field dictionary: the keys ['name'] and ['type'] are always read
    with [f[...]], ['extension'] with [f.get('extension', False)], so it
    may be missing. *)
Record field := {
  name : str;
  type : str;
  extension : option bool
}.

Definition get_extension (f : field) : bool :=
  match extension f with
  | Some b => b
  | None => false
  end.

Definition order_fields_for_serialization (fields : list field) : list field :=
  let non_extension := filter (fun f => negb (get_extension f)) fields in
  let extension := filter get_extension fields in
  let non_extension :=
    sort_reverse (fun f => get_type_bits (type f)) non_extension in
  non_extension ++ extension.

(** ** The CRC extra *)

(** The [for field in ordered_fields] loop of [calculate_crc_extra]. *)
Fixpoint crc_extra_loop (ordered_fields : list field) (crc : Z) : result Z :=
  match ordered_fields with
  | [] => Ok crc
  | field :: rest =>
      if get_extension field then crc_extra_loop rest crc
      else
        let base_type := get_base_type (type field) in
        let crc := accumulate_string (base_type ++ pystr " ") crc in
        let crc := accumulate_string (name field ++ pystr " ") crc in
        array_length <- get_array_length (type field) ;;
        let crc := if array_length >? 1
                   then accumulate_byte array_length crc else crc in
        crc_extra_loop rest crc
  end.

Definition calculate_crc_extra (message_name : str) (fields : list field)
  : result Z :=
  let crc := 0xFFFF in
  let crc := accumulate_string (message_name ++ pystr " ") crc in
  let ordered_fields := order_fields_for_serialization fields in
  crc <- crc_extra_loop ordered_fields crc ;;
  Ok (Z.lxor (Z.land crc 0xFF) (Z.shiftr crc 8)).

(** ** Field offsets *)

(** The dictionary built for each field by [calculate_field_offsets]:
    a copy of the field with four more keys. *)
Record resolved_field := {
  rf_field : field;
  rf_offset : Z;
  rf_size : Z;
  rf_array_length : Z;
  rf_base_type : str
}.

(** The loop of [calculate_field_offsets]; the final value of [offset]
    is returned next to [result]. *)
Fixpoint field_offsets_loop (ordered : list field) (offset : Z)
  : result (list resolved_field * Z) :=
  match ordered with
  | [] => Ok ([], offset)
  | field :: rest =>
      let base_type := get_base_type (type field) in
      let size := get_type_size (type field) in
      array_length <- get_array_length (type field) ;;
      let new_field :=
        {| rf_field := field;
           rf_offset := offset;
           rf_size := size;
           rf_array_length := array_length;
           rf_base_type := base_type |} in
      r <- field_offsets_loop rest (offset + size * array_length) ;;
      Ok (new_field :: fst r, snd r)
  end.

Definition calculate_field_offsets (fields : list field)
  : result (list resolved_field) :=
  let ordered := order_fields_for_serialization fields in
  r <- field_offsets_loop ordered 0 ;;
  Ok (fst r).

(** ** The messages of the module's self-test *)

Definition mk (n t : string) (e : bool) : field :=
  {| name := pystr n; type := pystr t; extension := Some e |}.

Definition heartbeat_fields : list field :=
  [ mk "type" "uint8_t" false;
    mk "autopilot" "uint8_t" false;
    mk "base_mode" "uint8_t" false;
    mk "custom_mode" "uint32_t" false;
    mk "system_status" "uint8_t" false;
    mk "mavlink_version" "uint8_t_mavlink_version" false ].

Definition sys_status_fields : list field :=
  [ mk "onboard_control_sensors_present" "uint32_t" false;
    mk "onboard_control_sensors_enabled" "uint32_t" false;
    mk "onboard_control_sensors_health" "uint32_t" false;
    mk "load" "uint16_t" false;
    mk "voltage_battery" "uint16_t" false;
    mk "current_battery" "int16_t" false;
    mk "battery_remaining" "int8_t" false;
    mk "drop_rate_comm" "uint16_t" false;
    mk "errors_comm" "uint16_t" false;
    mk "errors_count1" "uint16_t" false;
    mk "errors_count2" "uint16_t" false;
    mk "errors_count3" "uint16_t" false;
    mk "errors_count4" "uint16_t" false;
    mk "onboard_control_sensors_present_extended" "uint32_t" true;
    mk "onboard_control_sensors_enabled_extended" "uint32_t" true;
    mk "onboard_control_sensors_health_extended" "uint32_t" true ].

Definition attitude_fields : list field :=
  [ mk "time_boot_ms" "uint32_t" false;
    mk "roll" "float" false;
    mk "pitch" "float" false;
    mk "yaw" "float" false;
    mk "rollspeed" "float" false;
    mk "pitchspeed" "float" false;
    mk "yawspeed" "float" false ].

(** ** More built-ins, for the JSON generator *)

(** [d[key] = value]: the value of an existing key is replaced where it
    stands, a new key goes to the end. *)
Fixpoint dict_set {V} (d : list (str * V)) (key : str) (value : V)
  : list (str * V) :=
  match d with
  | [] => [(key, value)]
  | (k, v) :: d' =>
      if str_eqb k key then (k, value) :: d'
      else (k, v) :: dict_set d' key value
  end.

(** [str(n)] for an [int]: the decimal digits, after a minus sign for a
    negative number. *)
Fixpoint str_of_uint (u : Decimal.uint) : str :=
  match u with
  | Decimal.Nil => []
  | Decimal.D0 u' => chr "0" :: str_of_uint u'
  | Decimal.D1 u' => chr "1" :: str_of_uint u'
  | Decimal.D2 u' => chr "2" :: str_of_uint u'
  | Decimal.D3 u' => chr "3" :: str_of_uint u'
  | Decimal.D4 u' => chr "4" :: str_of_uint u'
  | Decimal.D5 u' => chr "5" :: str_of_uint u'
  | Decimal.D6 u' => chr "6" :: str_of_uint u'
  | Decimal.D7 u' => chr "7" :: str_of_uint u'
  | Decimal.D8 u' => chr "8" :: str_of_uint u'
  | Decimal.D9 u' => chr "9" :: str_of_uint u'
  end.

Definition str_of_int (n : Z) : str :=
  match Z.to_int n with
  | Decimal.Pos u => str_of_uint u
  | Decimal.Neg u => chr "-" :: str_of_uint u
  end.

(** ** The JSON generator ([generator.py]) *)

Module Generator.

(** The generator's own copy of [get_base_type]. *)
Definition get_base_type (type_str : str) : str :=
  if str_eqb type_str (pystr "uint8_t_mavlink_version") then pystr "uint8_t"
  else if str_contains (chr "[") type_str then str_before (chr "[") type_str
  else type_str.

(** A pymavlink [MAVField], with the attributes [build_field_json]
    reads.  [None] stands for an attribute that is missing or is
    [None]; the integer attributes are always present. *)
Record MAVField := {
  mf_name : str;
  mf_type : str;
  mf_wire_offset : Z;
  mf_array_length : Z;
  mf_units : option str;
  mf_enum : option str;
  mf_invalid : option str;
  mf_display : option str;
  mf_description : option str;
  mf_extension : option bool
}.

(** The dictionary [build_field_json] returns, key by key. *)
Record field_json := {
  j_name : str;
  j_type : str;
  j_base_type : str;
  j_offset : Z;
  j_size : Z;
  j_array_length : Z;
  j_units : option str;
  j_enum : option str;
  j_invalid : option str;
  j_display : option str;
  j_description : str;
  j_extension : bool
}.

(** The table local to [build_field_json] (sizes in bytes). *)
Definition type_sizes : list (str * Z) :=
  [ (pystr "int8_t", 1); (pystr "uint8_t", 1); (pystr "char", 1);
    (pystr "int16_t", 2); (pystr "uint16_t", 2);
    (pystr "int32_t", 4); (pystr "uint32_t", 4); (pystr "float", 4);
    (pystr "int64_t", 8); (pystr "uint64_t", 8); (pystr "double", 8) ].

(** [x or ""] on a string or [None]. *)
Definition or_empty (x : option str) : str :=
  match x with
  | Some d => d
  | None => []
  end.

Definition build_field_json (field : MAVField) : field_json :=
  let base_type := get_base_type (mf_type field) in
  let size := dict_get type_sizes base_type 1 in
  {| j_name := mf_name field;
     j_type := mf_type field;
     j_base_type := base_type;
     j_offset := mf_wire_offset field;
     j_size := size;
     j_array_length :=
       if mf_array_length field =? 0 then 1 else mf_array_length field;
     j_units := mf_units field;
     j_enum := mf_enum field;
     j_invalid := mf_invalid field;
     j_display := mf_display field;
     j_description := or_empty (mf_description field);
     j_extension :=
       match mf_extension field with
       | Some b => b
       | None => false
       end |}.

(** A pymavlink [MAVEnum] and its entries, with the attributes
    [build_enum_json] reads; entry values are ints. *)
Record MAVEnumEntry := {
  me_name : str;
  me_value : Z;
  me_description : option str
}.

Record MAVEnum := {
  en_name : str;
  en_description : option str;
  en_bitmask : option bool;
  en_entry : list MAVEnumEntry
}.

Record entry_json := {
  ej_name : str;
  ej_value : Z;
  ej_description : str
}.

Record enum_json := {
  nj_name : str;
  nj_description : str;
  nj_bitmask : bool;
  nj_entries : list (str * entry_json)
}.

(** The dictionary written for one entry. *)
Definition entry_dict (entry : MAVEnumEntry) : entry_json :=
  {| ej_name := me_name entry;
     ej_value := me_value entry;
     ej_description := or_empty (me_description entry) |}.

Definition build_enum_json (enum : MAVEnum) : enum_json :=
  let entries :=
    fold_left
      (fun entries entry =>
         dict_set entries (str_of_int (me_value entry)) (entry_dict entry))
      (en_entry enum) [] in
  {| nj_name := en_name enum;
     nj_description := or_empty (en_description enum);
     nj_bitmask := match en_bitmask enum with
                   | Some b => b
                   | None => false
                   end;
     nj_entries := entries |}.

End Generator.

(** ** Specification vocabulary *)

(** The final 8-bit fold of the 16-bit state. *)
Definition fold8 (crc : Z) : Z := Z.lxor (Z.land crc 0xFF) (Z.shiftr crc 8).

(** Bit width of a field, the sort key of the orderer. *)
Definition bits (f : field) : Z := get_type_bits (type f).

Definition non_extension (f : field) : bool := negb (get_extension f).

(** The fields of one width, in the order in which the list has them. *)
Definition of_width (w : Z) (l : list field) : list field :=
  filter (fun f => bits f =? w) l.

(** A list is in descending key order. *)
Definition descending {A} (key : A -> Z) (l : list A) : Prop :=
  StronglySorted (fun a b => key b <= key a) l.

(** Two field lists keep the same relative order inside every class that
    the orderer leaves alone: the non-extension fields of each width, and
    the extension fields. *)
Definition same_relative_order (l l' : list field) : Prop :=
  (forall w, of_width w (filter non_extension l')
             = of_width w (filter non_extension l))
  /\ filter get_extension l' = filter get_extension l.

(** Both computations return the same results on two field lists, and
    the stronger reading: both succeed on both lists and agree. *)
Definition same_results (message_name : str) (l l' : list field) : Prop :=
  calculate_crc_extra message_name l' = calculate_crc_extra message_name l
  /\ calculate_field_offsets l' = calculate_field_offsets l.

Definition same_values (message_name : str) (l l' : list field) : Prop :=
  exists crc rs,
    calculate_crc_extra message_name l = Ok crc
    /\ calculate_crc_extra message_name l' = Ok crc
    /\ calculate_field_offsets l = Ok rs
    /\ calculate_field_offsets l' = Ok rs.

(** Bytes a resolved field occupies, and the half-open range it covers. *)
Definition extent (r : resolved_field) : Z := rf_size r * rf_array_length r.

Definition in_range (r : resolved_field) (x : Z) : Prop :=
  rf_offset r <= x < rf_offset r + extent r.

Fixpoint encoded_length (rs : list resolved_field) : Z :=
  match rs with
  | [] => 0
  | r :: rs' => extent r + encoded_length rs'
  end.

Definition no_overlap (rs : list resolved_field) : Prop :=
  forall i j ri rj x,
    i <> j -> nth_error rs i = Some ri -> nth_error rs j = Some rj ->
    ~ (in_range ri x /\ in_range rj x).

(** A resolved field carries the values the resolution functions give
    for its type string. *)
Definition resolves (r : resolved_field) : Prop :=
  rf_base_type r = get_base_type (type (rf_field r))
  /\ rf_size r = get_type_size (type (rf_field r))
  /\ get_array_length (type (rf_field r)) = Ok (rf_array_length r).

(** ** Sample inputs *)

(** A type name that is not in [TYPE_BITS]. *)
Definition unknown_type : str := pystr "bool".

(** An array of length zero, and the scalar of the same base type. *)
Definition zero_length_field : field := mk "data" "uint8_t[0]" false.
Definition scalar_field : field := mk "data" "uint8_t" false.

(** An array of negative length between two arrays of four bytes. *)
Definition negative_length_fields : list field :=
  [ mk "x" "uint8_t[4]" false;
    mk "y" "uint8_t[-4]" false;
    mk "z" "uint8_t[4]" false ].

(** A bracket that is never closed, next to a well-formed field, in both
    orders. *)
Definition unclosed_fields : list field :=
  [ mk "a" "uint8_t[" false; mk "b" "uint8_t" false ].
Definition unclosed_fields_swapped : list field :=
  [ mk "b" "uint8_t" false; mk "a" "uint8_t[" false ].

(** HEARTBEAT with its 32-bit field declared first. *)
Definition heartbeat_fields_moved : list field :=
  [ mk "custom_mode" "uint32_t" false;
    mk "type" "uint8_t" false;
    mk "autopilot" "uint8_t" false;
    mk "base_mode" "uint8_t" false;
    mk "system_status" "uint8_t" false;
    mk "mavlink_version" "uint8_t_mavlink_version" false ].

(** ** Further vocabulary *)

(** [data.decode('latin-1')]: every byte becomes the character of the
    same code. *)
Definition latin1 (data : list byte) : str := map Byte.to_N data.

(** A value fits in sixteen bits. *)
Definition uint16 (x : Z) : Prop := 0 <= x < 65536.

(** The ASCII digits, and the number a digit string denotes. *)
Definition is_digit (c : char) : bool := ((48 <=? c) && (c <=? 57))%N.

Definition decimal_value (cs : str) : Z :=
  fold_left (fun acc c => 10 * acc + (Z.of_N c - 48)) cs 0.

(** Printable ASCII characters that have no place in a number. *)
Definition not_numeric (c : char) : bool :=
  ((33 <=? c) && (c <=? 126))%N
  && negb (is_digit c)
  && negb (N.eqb c (chr "+")) && negb (N.eqb c (chr "-"))
  && negb (N.eqb c (chr "_")).

(** The text that enters the CRC extra after the message name: for each
    non-extension field its base type, a space, its name, a space and,
    for an array, one character holding the length modulo 256. *)
Definition length_byte (n : Z) : str :=
  if n >? 1 then [Z.to_N (n mod 256)] else [].

Fixpoint crc_extra_text (ordered : list field) : result str :=
  match ordered with
  | [] => Ok []
  | f :: rest =>
      if get_extension f then crc_extra_text rest
      else
        n <- get_array_length (type f) ;;
        t <- crc_extra_text rest ;;
        Ok (get_base_type (type f) ++ pystr " " ++ name f ++ pystr " "
            ++ length_byte n ++ t)
  end.

(** A message whose extension field has a malformed type, and an enum
    of two entries with distinct values. *)
Definition malformed_extension_fields : list field :=
  [ mk "a" "uint8_t" false; mk "b" "uint8_t[" true ].

Definition sample_enum : Generator.MAVEnum :=
  {| Generator.en_name := pystr "MAV_STATE";
     Generator.en_description := None;
     Generator.en_bitmask := None;
     Generator.en_entry :=
       [ {| Generator.me_name := pystr "MAV_STATE_UNINIT";
            Generator.me_value := 0;
            Generator.me_description := Some (pystr "Uninitialized") |};
         {| Generator.me_name := pystr "MAV_STATE_BOOT";
            Generator.me_value := 1;
            Generator.me_description := None |} ] |}.

(** * Properties *)

(** ** The accumulator *)

Lemma land_0xFF (b : Z) : Z.land b 0xFF = b mod 256.
Proof. change 0xFF with (Z.ones 8). now rewrite Z.land_ones by lia. Qed.

Lemma byte_to_int_range (b : byte) : 0 <= byte_to_int b <= 255.
Proof.
  unfold byte_to_int. pose proof (Byte.to_N_bounded b). lia.
Qed.

Lemma land_0xFF_byte (b : byte) : Z.land (byte_to_int b) 0xFF = byte_to_int b.
Proof.
  rewrite land_0xFF. apply Z.mod_small.
  pose proof (byte_to_int_range b). lia.
Qed.

Lemma crc16_mcrf4xx_cons (b : byte) (data : list byte) (crc : Z) :
  crc16_mcrf4xx (b :: data) crc
  = crc16_mcrf4xx data (accumulate_byte (byte_to_int b) crc).
Proof.
  cbn [crc16_mcrf4xx]. unfold accumulate_byte.
  now rewrite land_0xFF_byte.
Qed.

(** C8.  [crc16_mcrf4xx] is the left fold of [accumulate_byte] over the
    bytes, in order, from any initial state; in particular one step of its
    loop is [accumulate_byte] on every byte value. *)
Theorem crc16_mcrf4xx_is_fold (data : list byte) (crc : Z) :
  crc16_mcrf4xx data crc
  = fold_left (fun state b => accumulate_byte (byte_to_int b) state) data crc
  /\ (forall b state,
        crc16_mcrf4xx [b] state = accumulate_byte (byte_to_int b) state).
Proof.
  split.
  - revert crc. induction data as [|b data IH]; intro crc.
    + reflexivity.
    + rewrite crc16_mcrf4xx_cons. cbn [fold_left]. apply IH.
  - intros b state. now rewrite crc16_mcrf4xx_cons.
Qed.

Lemma accumulate_byte_mod (b crc : Z) :
  accumulate_byte b crc = accumulate_byte (b mod 256) crc.
Proof.
  unfold accumulate_byte.
  now rewrite !(land_0xFF b), !(land_0xFF (b mod 256)), Z.mod_mod by lia.
Qed.

(** C10.  [accumulate_byte] only sees the low eight bits of its argument,
    whatever the argument and the state are; hence [accumulate_string]
    reads every code point modulo 256 and never rejects one. *)
Theorem accumulate_byte_masks_argument :
  (forall b crc, accumulate_byte b crc = accumulate_byte (b mod 256) crc)
  /\ (forall s crc,
        accumulate_string s crc
        = accumulate_string (map (fun c => (c mod 256)%N) s) crc).
Proof.
  split.
  - exact accumulate_byte_mod.
  - induction s as [|c s IH]; intro crc.
    + reflexivity.
    + cbn [accumulate_string map]. rewrite IH. f_equal.
      rewrite accumulate_byte_mod. f_equal.
      unfold ord. now rewrite N2Z.inj_mod.
Qed.

(** ** The examples of the docstrings *)

Example get_base_type_examples :
  get_base_type (pystr "uint8_t") = pystr "uint8_t"
  /\ get_base_type (pystr "uint8_t[20]") = pystr "uint8_t"
  /\ get_base_type (pystr "uint8_t_mavlink_version") = pystr "uint8_t".
Proof. repeat split. Qed.

Example get_array_length_examples :
  get_array_length (pystr "uint8_t") = Ok 1
  /\ get_array_length (pystr "uint8_t[20]") = Ok 20
  /\ get_array_length (pystr "float[4]") = Ok 4.
Proof. repeat split. Qed.

Example get_array_length_malformed :
  get_array_length (pystr "uint8_t[") = Raise ValueError
  /\ get_array_length (pystr "uint8_t[]") = Raise ValueError
  /\ get_array_length (pystr "uint8_t[n]") = Raise ValueError
  /\ get_array_length (pystr "uint8_t][4") = Raise ValueError.
Proof. repeat split. Qed.

Example int_examples :
  int (pystr " 12 ") = Ok 12
  /\ int (pystr "-4") = Ok (-4)
  /\ int (pystr "+007") = Ok 7
  /\ int (pystr "1_000") = Ok 1000
  /\ int (pystr "1__0") = Raise ValueError
  /\ int (pystr "_1") = Raise ValueError
  /\ int (pystr "- 1") = Raise ValueError
  /\ int (pystr "") = Raise ValueError.
Proof. repeat split. Qed.

(** ** The reference messages *)

Example attitude_crc_extra :
  calculate_crc_extra (pystr "ATTITUDE") attitude_fields = Ok 39.
Proof. vm_compute. reflexivity. Qed.

(** C1.  The CRC extra of HEARTBEAT is 50. *)
Theorem heartbeat_crc_extra :
  calculate_crc_extra (pystr "HEARTBEAT") heartbeat_fields = Ok 50.
Proof. vm_compute. reflexivity. Qed.

(** ** The stable descending sort *)

Section SortFacts.
Context {A : Type} (key : A -> Z).

Let class (w : Z) (l : list A) : list A := filter (fun a => key a =? w) l.

Lemma insert_reverse_perm (x : A) (l : list A) :
  Permutation (x :: l) (insert_reverse key x l).
Proof.
  induction l as [|y l IH]; cbn [insert_reverse].
  - reflexivity.
  - destruct (key x <? key y).
    + rewrite perm_swap. now apply perm_skip.
    + reflexivity.
Qed.

Lemma sort_reverse_perm (l : list A) : Permutation l (sort_reverse key l).
Proof.
  induction l as [|x l IH]; cbn [sort_reverse].
  - reflexivity.
  - rewrite <- insert_reverse_perm. now apply perm_skip.
Qed.

Lemma insert_reverse_descending (x : A) (l : list A) :
  descending key l -> descending key (insert_reverse key x l).
Proof.
  unfold descending.
  induction l as [|y l IH]; intro Hl; cbn [insert_reverse].
  - repeat constructor.
  - destruct (Z.ltb_spec (key x) (key y)) as [Hlt|Hge].
    + inversion Hl as [|? ? Hl' Hy]; subst.
      constructor; [now apply IH|].
      apply (Permutation_Forall (insert_reverse_perm x l)).
      constructor; [lia | exact Hy].
    + constructor; [exact Hl|].
      inversion Hl as [|? ? Hl' Hy]; subst.
      constructor; [lia|].
      eapply Forall_impl; [|exact Hy]. cbn. intros; lia.
Qed.

Lemma sort_reverse_descending (l : list A) :
  descending key (sort_reverse key l).
Proof.
  induction l as [|x l IH]; cbn [sort_reverse].
  - constructor.
  - now apply insert_reverse_descending.
Qed.

(** Stability: inserting [x] puts it in front of its own class and
    leaves every other class alone. *)
Lemma class_insert_reverse (w : Z) (x : A) (l : list A) :
  class w (insert_reverse key x l) = class w (x :: l).
Proof.
  unfold class.
  induction l as [|y l IH]; cbn [insert_reverse].
  - reflexivity.
  - destruct (Z.ltb_spec (key x) (key y)) as [Hlt|Hge]; [|reflexivity].
    cbn [filter] in *. rewrite IH.
    destruct (Z.eqb_spec (key x) w), (Z.eqb_spec (key y) w);
      try reflexivity; lia.
Qed.

Lemma class_sort_reverse (w : Z) (l : list A) :
  class w (sort_reverse key l) = class w l.
Proof.
  induction l as [|x l IH]; cbn [sort_reverse].
  - reflexivity.
  - rewrite class_insert_reverse. unfold class in *. cbn [filter].
    now rewrite IH.
Qed.

Lemma class_head (x : A) (l : list A) :
  class (key x) (x :: l) = x :: class (key x) l.
Proof. unfold class. cbn [filter]. now rewrite Z.eqb_refl. Qed.

Lemma class_In (w : Z) (a : A) (l : list A) :
  In a (class w l) -> In a l /\ key a = w.
Proof.
  unfold class. rewrite filter_In. intros [H1 H2].
  split; [exact H1 | now apply Z.eqb_eq].
Qed.

(** A descending list is determined by its classes. *)
Lemma descending_classes_eq (s1 s2 : list A) :
  descending key s1 -> descending key s2 ->
  (forall w, class w s1 = class w s2) ->
  s1 = s2.
Proof.
  unfold descending. revert s2.
  induction s1 as [|x s1 IH]; intros s2 H1 H2 Hc.
  - destruct s2 as [|y s2]; [reflexivity|].
    specialize (Hc (key y)). rewrite class_head in Hc. discriminate.
  - destruct s2 as [|y s2].
    { specialize (Hc (key x)). rewrite class_head in Hc. discriminate. }
    inversion H1 as [|? ? H1' Hx]; subst.
    inversion H2 as [|? ? H2' Hy]; subst.
    assert (Hk : key x = key y).
    { pose proof (Hc (key x)) as Cx. pose proof (Hc (key y)) as Cy.
      rewrite class_head in Cx. rewrite class_head in Cy.
      destruct (Z.eq_dec (key x) (key y)) as [E|NE]; [exact E|exfalso].
      assert (Iy : In y (class (key y) (x :: s1)))
        by (rewrite Cy; now left).
      assert (Ix : In x (class (key x) (y :: s2)))
        by (rewrite <- Cx; now left).
      apply class_In in Iy. apply class_In in Ix.
      destruct Iy as [[->|Iy] _]; [congruence|].
      destruct Ix as [[->|Ix] _]; [congruence|].
      rewrite Forall_forall in Hx, Hy.
      specialize (Hx _ Iy). specialize (Hy _ Ix). cbn in Hx, Hy. lia. }
    assert (x = y).
    { specialize (Hc (key x)). rewrite class_head in Hc.
      rewrite Hk in Hc at 2. rewrite class_head in Hc.
      now inversion Hc. }
    subst y. f_equal. apply IH; try assumption.
    intro w. specialize (Hc w). unfold class in *. cbn [filter] in Hc.
    destruct (key x =? w); [now inversion Hc | exact Hc].
Qed.

Lemma sort_reverse_classes_eq (l1 l2 : list A) :
  (forall w, class w l1 = class w l2) ->
  sort_reverse key l1 = sort_reverse key l2.
Proof.
  intro H. apply descending_classes_eq;
    try apply sort_reverse_descending.
  intro w. now rewrite !class_sort_reverse.
Qed.
End SortFacts.

(** ** The field orderer *)

Lemma filter_all {A} (p : A -> bool) (l : list A) :
  Forall (fun a => p a = true) l -> filter p l = l.
Proof.
  induction 1 as [|a l Ha _ IH]; cbn [filter].
  - reflexivity.
  - now rewrite Ha, IH.
Qed.

Lemma filter_none {A} (p : A -> bool) (l : list A) :
  Forall (fun a => p a = false) l -> filter p l = [].
Proof.
  induction 1 as [|a l Ha _ IH]; cbn [filter].
  - reflexivity.
  - now rewrite Ha.
Qed.

Lemma Forall_filter_true {A} (p : A -> bool) (l : list A) :
  Forall (fun a => p a = true) (filter p l).
Proof. apply Forall_forall. intros a Ha. now apply filter_In in Ha. Qed.

Lemma extension_not_non_extension (l : list field) :
  Forall (fun f => get_extension f = true) l ->
  Forall (fun f => non_extension f = false) l.
Proof.
  apply Forall_impl. intros f Hf. unfold non_extension. now rewrite Hf.
Qed.

Lemma non_extension_not_extension (l : list field) :
  Forall (fun f => non_extension f = true) l ->
  Forall (fun f => get_extension f = false) l.
Proof.
  apply Forall_impl. intros f Hf. unfold non_extension in Hf.
  now destruct (get_extension f).
Qed.

Lemma order_fields_unfold (fields : list field) :
  order_fields_for_serialization fields
  = sort_reverse bits (filter non_extension fields)
    ++ filter get_extension fields.
Proof. reflexivity. Qed.

Lemma sorted_part_non_extension (fields : list field) :
  Forall (fun f => non_extension f = true)
         (sort_reverse bits (filter non_extension fields)).
Proof.
  eapply Permutation_Forall; [apply sort_reverse_perm|].
  apply Forall_filter_true.
Qed.

Lemma filter_non_extension_order (fields : list field) :
  filter non_extension (order_fields_for_serialization fields)
  = sort_reverse bits (filter non_extension fields).
Proof.
  rewrite order_fields_unfold, filter_app.
  rewrite (filter_all _ _ (sorted_part_non_extension fields)).
  rewrite (filter_none non_extension (filter get_extension fields)).
  - apply app_nil_r.
  - apply extension_not_non_extension, Forall_filter_true.
Qed.

Lemma filter_extension_order (fields : list field) :
  filter get_extension (order_fields_for_serialization fields)
  = filter get_extension fields.
Proof.
  rewrite order_fields_unfold, filter_app.
  rewrite (filter_none get_extension (sort_reverse bits _)).
  - apply filter_all, Forall_filter_true.
  - apply non_extension_not_extension, sorted_part_non_extension.
Qed.

Lemma same_relative_order_iff_order (l l' : list field) :
  same_relative_order l l'
  <-> order_fields_for_serialization l' = order_fields_for_serialization l.
Proof.
  split.
  - intros [Hw He]. rewrite !order_fields_unfold, He. f_equal.
    apply sort_reverse_classes_eq. exact Hw.
  - intro H. split.
    + intro w. unfold of_width.
      rewrite <- (class_sort_reverse bits w (filter non_extension l')).
      rewrite <- (class_sort_reverse bits w (filter non_extension l)).
      now rewrite <- !filter_non_extension_order, H.
    + now rewrite <- (filter_extension_order l'), H, filter_extension_order.
Qed.

(** C3.  The orderer returns the non-extension fields, stably sorted by
    descending bit width, followed by the extension fields in declaration
    order: the first part is a rearrangement of the non-extension fields,
    its widths never increase, and for every width it lists the fields of
    that width in their declaration order. *)
Theorem order_fields_for_serialization_stable (fields : list field) :
  exists sorted,
    order_fields_for_serialization fields
    = sorted ++ filter get_extension fields
    /\ Permutation (filter non_extension fields) sorted
    /\ descending bits sorted
    /\ forall w, of_width w sorted
                 = of_width w (filter non_extension fields).
Proof.
  exists (sort_reverse bits (filter non_extension fields)).
  split; [apply order_fields_unfold|].
  split; [apply sort_reverse_perm|].
  split; [apply sort_reverse_descending|].
  intro w. apply class_sort_reverse.
Qed.

(** ** The CRC extra and the extension fields *)

Lemma crc_extra_loop_app (a b : list field) (crc : Z) :
  crc_extra_loop (a ++ b) crc
  = (c <- crc_extra_loop a crc ;; crc_extra_loop b c).
Proof.
  revert crc. induction a as [|f a IH]; intro crc; cbn [app crc_extra_loop].
  - reflexivity.
  - destruct (get_extension f); [apply IH|].
    destruct (get_array_length (type f)) as [n|e]; cbn [bind].
    + apply IH.
    + reflexivity.
Qed.

Lemma crc_extra_loop_extensions (l : list field) (crc : Z) :
  Forall (fun f => get_extension f = true) l ->
  crc_extra_loop l crc = Ok crc.
Proof.
  induction 1 as [|f l Hf _ IH]; cbn [crc_extra_loop].
  - reflexivity.
  - now rewrite Hf.
Qed.

(** The checksum is computed from the sorted non-extension fields only. *)
Lemma calculate_crc_extra_core (message_name : str) (fields : list field) :
  calculate_crc_extra message_name fields
  = (crc <- crc_extra_loop
              (sort_reverse bits (filter non_extension fields))
              (accumulate_string (message_name ++ pystr " ") 0xFFFF) ;;
     Ok (fold8 crc)).
Proof.
  unfold calculate_crc_extra. rewrite order_fields_unfold, crc_extra_loop_app.
  destruct (crc_extra_loop (sort_reverse bits (filter non_extension fields)) _)
    as [c|e]; cbn [bind]; [|reflexivity].
  rewrite crc_extra_loop_extensions by apply Forall_filter_true.
  reflexivity.
Qed.

Lemma calculate_crc_extra_non_extension (message_name : str)
      (fields fields' : list field) :
  filter non_extension fields' = filter non_extension fields ->
  calculate_crc_extra message_name fields'
  = calculate_crc_extra message_name fields.
Proof.
  intro H. now rewrite !calculate_crc_extra_core, H.
Qed.

(** C2.  The CRC extra of SYS_STATUS is 124, and so is the CRC extra of
    every field list with the same non-extension fields in the same order:
    extension fields can be removed, renamed, retyped or added. *)
Theorem sys_status_crc_extra :
  calculate_crc_extra (pystr "SYS_STATUS") sys_status_fields = Ok 124
  /\ forall fields,
       filter non_extension fields = filter non_extension sys_status_fields ->
       calculate_crc_extra (pystr "SYS_STATUS") fields = Ok 124.
Proof.
  assert (H : calculate_crc_extra (pystr "SYS_STATUS") sys_status_fields
              = Ok 124) by (vm_compute; reflexivity).
  split; [exact H|].
  intros fields Hf.
  now rewrite (calculate_crc_extra_non_extension _ _ _ Hf).
Qed.

(** C9.  With no field the CRC extra is the 8-bit fold of the state
    reached on the message name and a space, and a list of extension
    fields only gives the same value. *)
Theorem calculate_crc_extra_no_checked_field (message_name : str) :
  calculate_crc_extra message_name []
  = Ok (fold8 (accumulate_string (message_name ++ pystr " ") 0xFFFF))
  /\ forall fields,
       forallb get_extension fields = true ->
       calculate_crc_extra message_name fields
       = calculate_crc_extra message_name [].
Proof.
  split; [reflexivity|].
  intros fields H.
  apply calculate_crc_extra_non_extension.
  cbn [filter]. apply filter_none, extension_not_non_extension.
  rewrite forallb_forall in H. now apply Forall_forall.
Qed.

(** ** Field offsets *)

Lemma get_type_bits_values (type_str : str) :
  get_type_bits type_str = 8 \/ get_type_bits type_str = 16
  \/ get_type_bits type_str = 32 \/ get_type_bits type_str = 64.
Proof.
  unfold get_type_bits. generalize (get_base_type type_str) as k. intro k.
  unfold TYPE_BITS. cbn [dict_get].
  repeat (destruct (str_eqb _ k); [tauto|]). tauto.
Qed.

Lemma get_type_size_pos (type_str : str) : 1 <= get_type_size type_str.
Proof.
  unfold get_type_size.
  destruct (get_type_bits_values type_str) as [H|[H|[H|H]]];
    rewrite H; now vm_compute.
Qed.

Lemma field_offsets_loop_spec (ordered : list field) :
  forall offset rs final,
    field_offsets_loop ordered offset = Ok (rs, final) ->
    map rf_field rs = ordered
    /\ Forall resolves rs
    /\ final = offset + encoded_length rs
    /\ forall i r, nth_error rs i = Some r ->
                   rf_offset r = offset + encoded_length (firstn i rs).
Proof.
  induction ordered as [|f ordered IH]; intros offset rs final H;
    cbn [field_offsets_loop] in H.
  - inversion H; subst. cbn. repeat split; try constructor; try lia.
    intros [|i] r Hr; discriminate.
  - destruct (get_array_length (type f)) as [n|e] eqn:Hn;
      cbn [bind] in H; [|discriminate].
    destruct (field_offsets_loop ordered _) as [[rs' final']|e] eqn:Hl;
      cbn [bind fst snd] in H; [|discriminate].
    inversion H; subst; clear H.
    destruct (IH _ _ _ Hl) as (Hm & Hr & Hf & Ho).
    repeat split.
    + cbn [map rf_field]. now rewrite Hm.
    + constructor; [|exact Hr]. now repeat split.
    + cbn [encoded_length].
      match goal with
      | |- context [extent ?a + _] =>
          change (extent a) with (get_type_size (type f) * n)
      end. lia.
    + intros [|i] r Hi; cbn [nth_error firstn encoded_length] in *.
      * inversion Hi; subst. cbn [rf_offset]. lia.
      * rewrite (Ho _ _ Hi).
        match goal with
        | |- context [extent ?a + _] =>
            change (extent a) with (get_type_size (type f) * n)
        end. lia.
Qed.

Lemma calculate_field_offsets_loop (fields : list field)
      (rs : list resolved_field) :
  calculate_field_offsets fields = Ok rs ->
  exists final,
    field_offsets_loop (order_fields_for_serialization fields) 0
    = Ok (rs, final).
Proof.
  unfold calculate_field_offsets.
  destruct (field_offsets_loop _ 0) as [[rs' final]|e]; cbn [bind fst];
    [|discriminate].
  intro H. inversion H; subst. now exists final.
Qed.

Lemma calculate_field_offsets_fields (fields : list field)
      (rs : list resolved_field) :
  calculate_field_offsets fields = Ok rs ->
  map rf_field rs = order_fields_for_serialization fields.
Proof.
  intro H. destruct (calculate_field_offsets_loop _ _ H) as [final Hl].
  now apply field_offsets_loop_spec in Hl.
Qed.

Lemma encoded_length_firstn_le (rs : list resolved_field) :
  (forall r, In r rs -> 0 <= extent r) ->
  forall i j r, (i < j)%nat -> nth_error rs i = Some r ->
    encoded_length (firstn i rs) + extent r
    <= encoded_length (firstn j rs).
Proof.
  induction rs as [|a rs IH]; intros Hpos i j r Hij Hi.
  - destruct i; discriminate.
  - destruct j as [|j]; [lia|].
    assert (Hrest : forall k, 0 <= encoded_length (firstn k rs)).
    { clear - Hpos. intro k. revert k.
      induction rs as [|b rs IH]; intros [|k]; cbn; try lia.
      assert (0 <= extent b) by (apply Hpos; right; now left).
      assert (0 <= encoded_length (firstn k rs)); [|lia].
      apply IH. intros r [->|Hr]; apply Hpos; [now left | right; now right]. }
    destruct i as [|i]; cbn [nth_error firstn encoded_length] in *.
    + inversion Hi; subst. specialize (Hrest j). lia.
    + assert (encoded_length (firstn i rs) + extent r
              <= encoded_length (firstn j rs)); [|lia].
      apply IH; [|lia|exact Hi].
      intros r' Hr'. apply Hpos. now right.
Qed.

Lemma prefix_offsets_no_overlap (rs : list resolved_field) :
  (forall i r, nth_error rs i = Some r ->
               rf_offset r = encoded_length (firstn i rs)) ->
  (forall r, In r rs -> 0 <= extent r) ->
  no_overlap rs.
Proof.
  intros Ho Hpos i j ri rj x Hij Hi Hj [[Hi1 Hi2] [Hj1 Hj2]].
  rewrite (Ho _ _ Hi) in *. rewrite (Ho _ _ Hj) in *.
  destruct (Nat.lt_total i j) as [Hlt|[Heq|Hgt]]; [|contradiction|].
  - pose proof (encoded_length_firstn_le rs Hpos i j ri Hlt Hi). lia.
  - pose proof (encoded_length_firstn_le rs Hpos j i rj Hgt Hj). lia.
Qed.

(** C7 (amended).  When [calculate_field_offsets] succeeds, its result
    lists the fields in canonical order, extension fields included, each
    with the values its type string resolves to and with an offset equal
    to the sum of [size * array_length] over all the fields before it,
    counted from 0; the loop ends with the cursor at the sum over all
    fields.  When no array length is negative, no two of the ranges
    overlap. *)
Theorem calculate_field_offsets_layout
        (fields : list field) (rs : list resolved_field) :
  calculate_field_offsets fields = Ok rs ->
  map rf_field rs = order_fields_for_serialization fields
  /\ Forall resolves rs
  /\ (forall i r, nth_error rs i = Some r ->
                  rf_offset r = encoded_length (firstn i rs))
  /\ field_offsets_loop (order_fields_for_serialization fields) 0
     = Ok (rs, encoded_length rs)
  /\ ((forall r, In r rs -> 0 <= rf_array_length r) -> no_overlap rs).
Proof.
  intro H. destruct (calculate_field_offsets_loop _ _ H) as [final Hl].
  destruct (field_offsets_loop_spec _ _ _ _ Hl) as (Hm & Hr & Hf & Ho).
  cbn in Hf. subst final.
  assert (Ho' : forall i r, nth_error rs i = Some r ->
                            rf_offset r = encoded_length (firstn i rs)).
  { intros i r Hi. now rewrite (Ho _ _ Hi). }
  split; [exact Hm|]. split; [exact Hr|]. split; [exact Ho'|].
  split; [exact Hl|].
  intros Hpos. apply prefix_offsets_no_overlap.
  - exact Ho'.
  - intros r Hin. unfold extent.
    rewrite Forall_forall in Hr. destruct (Hr _ Hin) as (_ & Hs & _).
    pose proof (get_type_size_pos (type (rf_field r))).
    specialize (Hpos _ Hin). nia.
Qed.

Lemma calculate_field_offsets_layout_witness :
  exists rs,
    calculate_field_offsets sys_status_fields = Ok rs
    /\ field_offsets_loop (order_fields_for_serialization sys_status_fields) 0
       = Ok (rs, 43)
    /\ no_overlap rs.
Proof.
  eexists. split; [vm_compute; reflexivity|].
  match goal with
  | |- context [Ok (?rs, _)] =>
      destruct (calculate_field_offsets_layout sys_status_fields rs eq_refl)
        as (_ & _ & _ & Hl & Hn)
  end.
  split; [exact Hl|].
  apply Hn. intros r Hr. cbn in Hr.
  repeat (destruct Hr as [<-|Hr]; [cbn; lia|]). contradiction.
Defined.

(** C7, as stated, fails on an array of negative length: the cursor
    moves back and the next field lands on the bytes of an earlier one. *)
Lemma negative_length_overlap :
  ~ (forall fields rs,
       calculate_field_offsets fields = Ok rs -> no_overlap rs).
Proof.
  intro H.
  pose proof (H negative_length_fields _ eq_refl) as Hn.
  refine (Hn 0%nat 2%nat _ _ 0 _ eq_refl eq_refl _); [discriminate|].
  split; vm_compute; split; congruence.
Qed.

(** ** Declaration order *)

Lemma crc_extra_loop_ok (l : list field) :
  Forall (fun f => is_ok (get_array_length (type f))) l ->
  forall crc, is_ok (crc_extra_loop l crc).
Proof.
  induction 1 as [|f l [n Hn] _ IH]; intro crc; cbn [crc_extra_loop].
  - now exists crc.
  - destruct (get_extension f); [apply IH|].
    rewrite Hn. cbn [bind]. apply IH.
Qed.

Lemma calculate_field_offsets_resolves (fields : list field) :
  is_ok (calculate_field_offsets fields) ->
  Forall (fun f => is_ok (get_array_length (type f)))
         (order_fields_for_serialization fields).
Proof.
  intros [rs H].
  destruct (calculate_field_offsets_loop _ _ H) as [final Hl].
  destruct (field_offsets_loop_spec _ _ _ _ Hl) as (Hm & Hr & _).
  rewrite <- Hm. apply Forall_map.
  eapply Forall_impl; [|exact Hr].
  intros r (_ & _ & Hn). now exists (rf_array_length r).
Qed.

Lemma calculate_crc_extra_ok (message_name : str) (fields : list field) :
  is_ok (calculate_field_offsets fields) ->
  is_ok (calculate_crc_extra message_name fields).
Proof.
  intro H. apply calculate_field_offsets_resolves in H.
  unfold calculate_crc_extra.
  destruct (crc_extra_loop_ok _ H
              (accumulate_string (message_name ++ pystr " ") 0xFFFF))
    as [crc Hc].
  rewrite Hc. cbn [bind]. now eexists.
Qed.

(** C4 (amended).  For a rearrangement of a field list: if it keeps the
    relative order of the non-extension fields of each width and of the
    extension fields, the CRC extra and the layout come out as for the
    original; and when the layout of the original is computed without
    error, so is its CRC extra, and the converse holds as well. *)
Theorem declaration_order_invariance
        (message_name : str) (fields fields' : list field) :
  Permutation fields fields' ->
  (same_relative_order fields fields' ->
   same_results message_name fields fields')
  /\ (is_ok (calculate_field_offsets fields) ->
      is_ok (calculate_crc_extra message_name fields)
      /\ (same_results message_name fields fields'
          <-> same_relative_order fields fields')).
Proof.
  intros _.
  assert (Hif : same_relative_order fields fields' ->
                same_results message_name fields fields').
  { intro H. apply same_relative_order_iff_order in H.
    unfold same_results, calculate_crc_extra, calculate_field_offsets.
    now rewrite H. }
  split; [exact Hif|].
  intro Hok. split; [now apply calculate_crc_extra_ok|].
  split; [|exact Hif].
  destruct Hok as [rs Hrs].
  intros [_ Hl]. apply same_relative_order_iff_order.
  rewrite Hrs in Hl.
  now rewrite <- (calculate_field_offsets_fields _ _ Hl),
              <- (calculate_field_offsets_fields _ _ Hrs).
Qed.

Lemma declaration_order_invariance_witness :
  Permutation heartbeat_fields heartbeat_fields_moved
  /\ is_ok (calculate_field_offsets heartbeat_fields)
  /\ same_relative_order heartbeat_fields heartbeat_fields_moved
  /\ same_results (pystr "HEARTBEAT") heartbeat_fields heartbeat_fields_moved.
Proof.
  assert (P : Permutation heartbeat_fields heartbeat_fields_moved).
  { unfold heartbeat_fields, heartbeat_fields_moved.
    eapply perm_trans; [do 2 apply perm_skip; apply perm_swap|].
    eapply perm_trans; [apply perm_skip; apply perm_swap|].
    apply perm_swap. }
  assert (K : is_ok (calculate_field_offsets heartbeat_fields)).
  { eexists. vm_compute. reflexivity. }
  destruct (declaration_order_invariance (pystr "HEARTBEAT") _ _ P)
    as [Hif Honly].
  assert (E : same_results (pystr "HEARTBEAT")
                           heartbeat_fields heartbeat_fields_moved).
  { split; vm_compute; reflexivity. }
  pose proof (proj1 (proj2 (Honly K)) E) as O.
  split; [exact P|]. split; [exact K|]. split; [exact O|].
  exact (Hif O).
Defined.

(** C4, as stated for every field list, fails when a type string is
    malformed.  Both orders of [unclosed_fields] raise the same error
    although two fields of equal width were exchanged; and if "the same
    checksum" is to mean that a checksum is returned, the list fails
    against itself, order kept and nothing returned. *)
Lemma unclosed_bracket_hides_order :
  ~ (forall message_name fields fields',
       Permutation fields fields' ->
       (same_results message_name fields fields'
        <-> same_relative_order fields fields'))
  /\ ~ (forall message_name fields fields',
          Permutation fields fields' ->
          (same_values message_name fields fields'
           <-> same_relative_order fields fields')).
Proof.
  split; intro H.
  - assert (P : Permutation unclosed_fields unclosed_fields_swapped)
      by apply perm_swap.
    destruct (H (pystr "M") _ _ P) as [Hto _].
    destruct Hto as [Hw _]; [split; vm_compute; reflexivity|].
    specialize (Hw 8). vm_compute in Hw. discriminate.
  - destruct (H (pystr "M") _ _ (Permutation_refl unclosed_fields))
      as [_ Hfrom].
    destruct Hfrom as (crc & rs & Hc & _); [now split|].
    vm_compute in Hc. discriminate.
Qed.

(** ** Lookups that the module does not reject *)

Lemma dict_get_absent {V} (d : list (str * V)) (key : str) (default : V) :
  dict_lookup d key = None -> dict_get d key default = default.
Proof.
  induction d as [|[k v] d IH]; cbn [dict_lookup dict_get].
  - reflexivity.
  - destruct (str_eqb k key); [discriminate | exact IH].
Qed.

(** C5 (amended).  For a type string whose base type is not a key of
    [TYPE_BITS], the width lookup raises nothing: it returns 8 bits, and
    the size is 1 byte. *)
Theorem get_type_bits_unknown (type_str : str) :
  dict_lookup TYPE_BITS (get_base_type type_str) = None ->
  get_type_bits type_str = 8 /\ get_type_size type_str = 1.
Proof.
  intro H. unfold get_type_size, get_type_bits.
  rewrite (dict_get_absent _ _ _ H). split; reflexivity.
Qed.

Lemma get_type_bits_unknown_witness :
  dict_lookup TYPE_BITS (get_base_type unknown_type) = None
  /\ get_type_bits unknown_type = 8 /\ get_type_size unknown_type = 1.
Proof.
  split; [reflexivity|].
  apply (get_type_bits_unknown unknown_type). reflexivity.
Defined.

(** C5, as stated, fails: [bool] is not in the table and is given the
    width of a byte. *)
Lemma unknown_type_defaults_to_byte :
  dict_lookup TYPE_BITS (get_base_type unknown_type) = None
  /\ get_type_bits unknown_type = 8
  /\ get_type_size unknown_type = 1
  /\ calculate_field_offsets
       [ {| name := pystr "flag"; type := unknown_type;
            extension := Some false |} ]
     = Ok [ {| rf_field := {| name := pystr "flag"; type := unknown_type;
                              extension := Some false |};
               rf_offset := 0; rf_size := 1; rf_array_length := 1;
               rf_base_type := unknown_type |} ].
Proof. repeat split. Qed.

Lemma order_singleton (f : field) :
  order_fields_for_serialization [f] = [f].
Proof.
  unfold order_fields_for_serialization. cbn [filter].
  now destruct (get_extension f).
Qed.

(** C6 (amended).  A type string whose bracketed length reads as an
    integer [n <= 0] is resolved without error to that [n].  The layout
    records [n] as the array length and moves the cursor by [size * n];
    the CRC extra of a non-extension field takes its base type and its
    name and no length byte, as for a scalar. *)
Theorem array_length_not_positive (f : field) (n : Z) :
  get_array_length (type f) = Ok n -> n <= 0 ->
  (forall rest offset,
     field_offsets_loop (f :: rest) offset
     = (r <- field_offsets_loop rest (offset + get_type_size (type f) * n) ;;
        Ok ({| rf_field := f; rf_offset := offset;
               rf_size := get_type_size (type f);
               rf_array_length := n;
               rf_base_type := get_base_type (type f) |} :: fst r, snd r)))
  /\ calculate_field_offsets [f]
     = Ok [ {| rf_field := f; rf_offset := 0;
               rf_size := get_type_size (type f);
               rf_array_length := n;
               rf_base_type := get_base_type (type f) |} ]
  /\ (get_extension f = false ->
      (forall rest crc,
         crc_extra_loop (f :: rest) crc
         = crc_extra_loop rest
             (accumulate_string (name f ++ pystr " ")
                (accumulate_string (get_base_type (type f) ++ pystr " ")
                   crc)))
      /\ forall message_name,
           calculate_crc_extra message_name [f]
           = Ok (fold8
                   (accumulate_string (name f ++ pystr " ")
                      (accumulate_string (get_base_type (type f) ++ pystr " ")
                         (accumulate_string (message_name ++ pystr " ")
                            0xFFFF))))).
Proof.
  intros Hn Hle.
  assert (Hgt : (n >? 1) = false)
    by (rewrite Z.gtb_ltb; apply Z.ltb_ge; lia).
  split; [|split].
  - intros rest offset. cbn [field_offsets_loop]. now rewrite Hn.
  - unfold calculate_field_offsets. rewrite order_singleton.
    cbn [field_offsets_loop]. now rewrite Hn.
  - intro He. split.
    + intros rest crc. cbn [crc_extra_loop]. rewrite He, Hn. cbn [bind].
      now rewrite Hgt.
    + intro message_name. unfold calculate_crc_extra.
      rewrite order_singleton. cbn [crc_extra_loop]. rewrite He, Hn.
      cbn [bind]. now rewrite Hgt.
Qed.

Lemma array_length_not_positive_witness :
  get_array_length (type zero_length_field) = Ok 0
  /\ calculate_field_offsets [zero_length_field]
     = Ok [ {| rf_field := zero_length_field; rf_offset := 0;
               rf_size := 1; rf_array_length := 0;
               rf_base_type := pystr "uint8_t" |} ]
  /\ calculate_crc_extra (pystr "M") [zero_length_field]
     = calculate_crc_extra (pystr "M") [scalar_field].
Proof.
  assert (H : get_array_length (type zero_length_field) = Ok 0)
    by reflexivity.
  destruct (array_length_not_positive zero_length_field 0 H ltac:(lia))
    as (_ & Hl & Hc).
  split; [exact H|]. split; [exact Hl|].
  rewrite (proj2 (Hc eq_refl) (pystr "M")). vm_compute. reflexivity.
Defined.

(** C6, as stated, fails on [uint8_t[0]]: nothing is raised, the field
    is laid out with length 0 and enters the CRC extra as a scalar. *)
Lemma zero_length_array_accepted :
  get_array_length (pystr "uint8_t[0]") = Ok 0
  /\ calculate_field_offsets [zero_length_field]
     = Ok [ {| rf_field := zero_length_field; rf_offset := 0;
               rf_size := 1; rf_array_length := 0;
               rf_base_type := pystr "uint8_t" |} ]
  /\ calculate_crc_extra (pystr "M") [zero_length_field] = Ok 188
  /\ calculate_crc_extra (pystr "M") [scalar_field] = Ok 188
  /\ calculate_crc_extra (pystr "M") [] = Ok 131.
Proof. repeat split. Qed.

(** ** Instances *)

Lemma sys_status_crc_extra_witness :
  filter non_extension (firstn 13 sys_status_fields)
  = filter non_extension sys_status_fields
  /\ calculate_crc_extra (pystr "SYS_STATUS") (firstn 13 sys_status_fields)
     = Ok 124.
Proof.
  split; [reflexivity|].
  apply (proj2 sys_status_crc_extra). reflexivity.
Defined.

Lemma calculate_crc_extra_no_checked_field_witness :
  calculate_crc_extra (pystr "SYS_STATUS") (skipn 13 sys_status_fields)
  = calculate_crc_extra (pystr "SYS_STATUS") [].
Proof.
  apply (proj2 (calculate_crc_extra_no_checked_field (pystr "SYS_STATUS"))
               (skipn 13 sys_status_fields)).
  reflexivity.
Defined.

(** * Further properties of the module *)

(** ** Range of the accumulator *)

Lemma land_0xFFFF (x : Z) : Z.land x 0xFFFF = x mod 65536.
Proof. change 0xFFFF with (Z.ones 16). now rewrite Z.land_ones by lia. Qed.

Lemma accumulate_byte_uint16 (b crc : Z) : uint16 (accumulate_byte b crc).
Proof.
  unfold accumulate_byte, uint16. rewrite land_0xFFFF.
  apply Z.mod_pos_bound. lia.
Qed.

Lemma accumulate_string_uint16 (s : str) :
  forall crc, uint16 crc -> uint16 (accumulate_string s crc).
Proof.
  induction s as [|c s IH]; intros crc H; cbn [accumulate_string].
  - exact H.
  - apply IH, accumulate_byte_uint16.
Qed.

Lemma accumulate_string_app (a b : str) (crc : Z) :
  accumulate_string (a ++ b) crc
  = accumulate_string b (accumulate_string a crc).
Proof.
  revert crc. induction a as [|c a IH]; intro crc;
    cbn [app accumulate_string].
  - reflexivity.
  - apply IH.
Qed.

Lemma testbit_above (n a i : Z) :
  0 <= n -> 0 <= a < 2 ^ n -> n <= i -> Z.testbit a i = false.
Proof.
  intros Hn Ha Hi.
  destruct (Z.eq_dec a 0) as [->|Hz]; [apply Z.bits_0|].
  apply Z.bits_above_log2; [lia|].
  apply Z.lt_le_trans with n; [|exact Hi].
  apply Z.log2_lt_pow2; lia.
Qed.

Lemma lxor_below (n a b : Z) :
  0 <= n -> 0 <= a < 2 ^ n -> 0 <= b < 2 ^ n -> 0 <= Z.lxor a b < 2 ^ n.
Proof.
  intros Hn Ha Hb.
  assert (H : Z.lxor a b mod 2 ^ n = Z.lxor a b).
  { rewrite <- Z.land_ones by exact Hn.
    apply Z.bits_inj'. intros i Hi.
    rewrite Z.land_spec, Z.lxor_spec.
    destruct (Z.lt_ge_cases i n) as [Hlt|Hge].
    - rewrite Z.ones_spec_low by lia. apply andb_true_r.
    - rewrite (testbit_above n a i), (testbit_above n b i) by assumption.
      reflexivity. }
  rewrite <- H. apply Z.mod_pos_bound. lia.
Qed.

Lemma fold8_range (crc : Z) : uint16 crc -> 0 <= fold8 crc <= 255.
Proof.
  unfold uint16, fold8. intro H.
  assert (0 <= Z.lxor (Z.land crc 0xFF) (Z.shiftr crc 8) < 2 ^ 8);
    [|lia].
  apply lxor_below; [lia| |].
  - rewrite land_0xFF. apply Z.mod_pos_bound. lia.
  - rewrite Z.shiftr_div_pow2 by lia. split.
    + apply Z.div_pos; lia.
    + apply Z.div_lt_upper_bound; lia.
Qed.

Lemma crc_extra_loop_uint16 (l : list field) :
  forall crc c, uint16 crc -> crc_extra_loop l crc = Ok c -> uint16 c.
Proof.
  induction l as [|f l IH]; intros crc c H Hl; cbn [crc_extra_loop] in Hl.
  - now inversion Hl; subst.
  - destruct (get_extension f); [now apply (IH crc)|].
    destruct (get_array_length (type f)) as [n|e]; cbn [bind] in Hl;
      [|discriminate].
    eapply IH; [|exact Hl].
    destruct (n >? 1).
    + apply accumulate_byte_uint16.
    + now do 2 apply accumulate_string_uint16.
Qed.

(** X1.  One step of the accumulator always lands in sixteen bits,
    whatever the byte and the previous state are, and the loops over a
    string or over bytes never leave sixteen bits once inside. *)
Theorem accumulator_stays_in_16_bits :
  (forall b crc, uint16 (accumulate_byte b crc))
  /\ (forall s crc, uint16 crc -> uint16 (accumulate_string s crc))
  /\ (forall data crc, uint16 crc -> uint16 (crc16_mcrf4xx data crc)).
Proof.
  split; [exact accumulate_byte_uint16|].
  split; [intros s crc; apply accumulate_string_uint16|].
  induction data as [|b data IH]; intros crc H.
  - exact H.
  - rewrite crc16_mcrf4xx_cons. apply IH, accumulate_byte_uint16.
Qed.

Lemma accumulator_stays_in_16_bits_witness :
  uint16 (accumulate_string (pystr "HEARTBEAT ") 0xFFFF)
  /\ uint16 (crc16_mcrf4xx [x48; x42]%byte 0xFFFF).
Proof.
  destruct accumulator_stays_in_16_bits as (_ & Hs & Hd).
  split; [apply Hs | apply Hd]; unfold uint16; lia.
Defined.

(** X2.  When [calculate_crc_extra] returns, the value is a byte. *)
Theorem calculate_crc_extra_is_byte
        (message_name : str) (fields : list field) (v : Z) :
  calculate_crc_extra message_name fields = Ok v -> 0 <= v <= 255.
Proof.
  unfold calculate_crc_extra. intro H.
  destruct (crc_extra_loop _ _) as [c|e] eqn:Hc; cbn [bind] in H;
    [|discriminate].
  inversion H; subst. apply fold8_range.
  eapply crc_extra_loop_uint16; [|exact Hc].
  apply accumulate_string_uint16. unfold uint16. lia.
Qed.

Lemma calculate_crc_extra_is_byte_witness :
  calculate_crc_extra (pystr "SYS_STATUS") sys_status_fields = Ok 124
  /\ 0 <= 124 <= 255.
Proof.
  assert (H : calculate_crc_extra (pystr "SYS_STATUS") sys_status_fields
              = Ok 124) by (vm_compute; reflexivity).
  split; [exact H|].
  exact (calculate_crc_extra_is_byte _ _ _ H).
Defined.

(** X3.  The accumulator is incremental: running it over a
    concatenation is running it over the first part and continuing from
    the state reached over the second, for bytes and for strings. *)
Theorem accumulate_concatenation :
  (forall a b crc,
     crc16_mcrf4xx (a ++ b) crc = crc16_mcrf4xx b (crc16_mcrf4xx a crc))
  /\ (forall a b crc,
        accumulate_string (a ++ b) crc
        = accumulate_string b (accumulate_string a crc)).
Proof.
  split; [|exact accumulate_string_app].
  induction a as [|x a IH]; intros b crc.
  - reflexivity.
  - change ((x :: a) ++ b) with (x :: (a ++ b)).
    rewrite !crc16_mcrf4xx_cons. apply IH.
Qed.

Lemma accumulate_string_bytes (data : list byte) (crc : Z) :
  accumulate_string (latin1 data) crc = crc16_mcrf4xx data crc.
Proof.
  revert crc. induction data as [|b data IH]; intro crc.
  - reflexivity.
  - rewrite crc16_mcrf4xx_cons. cbn [latin1 map accumulate_string].
    apply IH.
Qed.

(** X4.  On text made of byte-sized characters the string accumulator
    and the byte accumulator agree, from any state. *)
Theorem accumulate_string_latin1 (data : list byte) (crc : Z) :
  accumulate_string (latin1 data) crc = crc16_mcrf4xx data crc.
Proof. apply accumulate_string_bytes. Qed.

(** ** Type strings *)

Lemma str_eqb_eq (a b : str) : str_eqb a b = true <-> a = b.
Proof.
  revert b. induction a as [|x a IH]; intros [|y b]; cbn [str_eqb];
    try (split; [discriminate | congruence]); [tauto|].
  rewrite andb_true_iff, N.eqb_eq, IH. split.
  - now intros [-> ->].
  - intro H. now inversion H.
Qed.

Lemma str_contains_app (c : char) (a b : str) :
  str_contains c (a ++ b) = str_contains c a || str_contains c b.
Proof. apply existsb_app. Qed.

Lemma str_contains_cons (c x : char) (s : str) :
  str_contains c (x :: s) = N.eqb x c || str_contains c s.
Proof. unfold str_contains. cbn [existsb]. now rewrite N.eqb_sym. Qed.

Lemma str_before_app (c : char) (a r : str) :
  str_contains c a = false -> str_before c (a ++ c :: r) = a.
Proof.
  induction a as [|x a IH]; cbn [app str_before].
  - now rewrite N.eqb_refl.
  - rewrite str_contains_cons, orb_false_iff. intros [Hx Ha].
    now rewrite Hx, IH.
Qed.

Lemma str_before_no_char (c : char) (s : str) :
  str_contains c (str_before c s) = false.
Proof.
  induction s as [|x s IH]; cbn [str_before].
  - reflexivity.
  - destruct (N.eqb x c) eqn:E; [reflexivity|].
    now rewrite str_contains_cons, E, IH.
Qed.

Lemma str_index_app (c : char) (a r : str) :
  str_contains c a = false ->
  str_index c (a ++ c :: r) = Ok (List.length a).
Proof.
  induction a as [|x a IH]; cbn [app str_index List.length].
  - now rewrite N.eqb_refl.
  - rewrite str_contains_cons, orb_false_iff. intros [Hx Ha].
    now rewrite Hx, IH.
Qed.

Lemma str_index_absent (c : char) (s : str) :
  str_contains c s = false -> str_index c s = Raise ValueError.
Proof.
  induction s as [|x s IH]; cbn [str_index].
  - reflexivity.
  - rewrite str_contains_cons, orb_false_iff. intros [Hx Hs].
    now rewrite Hx, IH.
Qed.

Lemma str_index_present (c : char) (s : str) :
  str_contains c s = true -> exists i, str_index c s = Ok i.
Proof.
  induction s as [|x s IH]; cbn [str_index].
  - discriminate.
  - rewrite str_contains_cons. destruct (N.eqb x c); [now exists 0%nat|].
    cbn [orb]. intro H. destruct (IH H) as [i ->]. now exists (S i).
Qed.

(** X5.  A base type never contains an opening bracket; and unless it
    is the name of the version alias, resolving it again gives it
    back. *)
Theorem get_base_type_no_bracket (type_str : str) :
  str_contains (chr "[") (get_base_type type_str) = false
  /\ (get_base_type type_str <> pystr "uint8_t_mavlink_version" ->
      get_base_type (get_base_type type_str) = get_base_type type_str).
Proof.
  assert (H : str_contains (chr "[") (get_base_type type_str) = false).
  { unfold get_base_type.
    destruct (str_eqb type_str _); [reflexivity|].
    destruct (str_contains (chr "[") type_str) eqn:E;
      [apply str_before_no_char | exact E]. }
  split; [exact H|].
  intro Hne. generalize dependent (get_base_type type_str). intros b H Hne.
  unfold get_base_type.
  destruct (str_eqb b _) eqn:E; [now apply str_eqb_eq in E|].
  now rewrite H.
Qed.

Lemma get_base_type_no_bracket_witness :
  get_base_type (get_base_type (pystr "float[4]"))
  = get_base_type (pystr "float[4]").
Proof.
  apply (proj2 (get_base_type_no_bracket (pystr "float[4]"))).
  vm_compute. discriminate.
Defined.

(** X6.  Whatever the type string, known or not, the width is 8, 16, 32
    or 64 bits, the size is 1, 2, 4 or 8 bytes, and the width is eight
    times the size. *)
Theorem type_width_and_size (type_str : str) :
  In (get_type_bits type_str) [8; 16; 32; 64]
  /\ In (get_type_size type_str) [1; 2; 4; 8]
  /\ get_type_bits type_str = 8 * get_type_size type_str.
Proof.
  unfold get_type_size.
  destruct (get_type_bits_values type_str) as [H|[H|[H|H]]]; rewrite H;
    cbn; intuition.
Qed.

(** ** Reading the array length *)

Lemma is_space_spec (c : char) :
  is_space c = true ->
  (9 <= c <= 13 \/ c = 32 \/ c = 133 \/ c = 160 \/ c = 5760
   \/ 8192 <= c <= 8202 \/ c = 8232 \/ c = 8233 \/ c = 8239
   \/ c = 8287 \/ c = 12288)%N.
Proof.
  unfold is_space.
  rewrite !orb_true_iff, !andb_true_iff, !N.leb_le, !N.eqb_eq. tauto.
Qed.

Lemma is_digit_spec (c : char) : is_digit c = true <-> (48 <= c <= 57)%N.
Proof. unfold is_digit. now rewrite andb_true_iff, !N.leb_le. Qed.

Lemma digit_value_digit (c : char) :
  is_digit c = true -> digit_value c = Some (Z.of_N c - 48).
Proof. unfold digit_value, is_digit. now intros ->. Qed.

Lemma digit_value_other (c : char) :
  is_digit c = false -> digit_value c = None.
Proof. unfold digit_value, is_digit. now intros ->. Qed.

Lemma is_digit_not_space (c : char) :
  is_digit c = true -> is_space c = false.
Proof.
  rewrite is_digit_spec. intro H.
  destruct (is_space c) eqn:E; [|reflexivity].
  apply is_space_spec in E. lia.
Qed.

Lemma lstrip_head (c : char) (s : str) :
  is_space c = false -> lstrip (c :: s) = c :: s.
Proof. cbn [lstrip]. now intros ->. Qed.

Lemma strip_digits (cs : str) :
  Forall (fun c => is_digit c = true) cs -> strip cs = cs.
Proof.
  intro H. unfold strip.
  assert (L : forall s, Forall (fun c => is_digit c = true) s ->
                        lstrip s = s).
  { intros [|c s] Hs; [reflexivity|].
    apply lstrip_head, is_digit_not_space. now inversion Hs. }
  rewrite (L cs H), L, rev_involutive; [reflexivity|].
  now apply Forall_rev.
Qed.

Lemma int_digits_digits (cs : str) :
  Forall (fun c => is_digit c = true) cs ->
  forall acc,
    int_digits cs acc
    = Ok (fold_left (fun a c => 10 * a + (Z.of_N c - 48)) cs acc).
Proof.
  induction 1 as [|c cs Hc _ IH]; intro acc; cbn [int_digits fold_left].
  - reflexivity.
  - rewrite (digit_value_digit c Hc). apply IH.
Qed.

Lemma int_digit_string (cs : str) :
  cs <> [] -> Forall (fun c => is_digit c = true) cs ->
  int cs = Ok (decimal_value cs).
Proof.
  intros Hne H. unfold int. rewrite (strip_digits cs H).
  destruct cs as [|c cs]; [contradiction|].
  assert (Hc : is_digit c = true) by now inversion H.
  pose proof (proj1 (is_digit_spec c) Hc) as Hr.
  assert (Em : N.eqb c (chr "-") = false) by (apply N.eqb_neq; cbn; lia).
  assert (Ep : N.eqb c (chr "+") = false) by (apply N.eqb_neq; cbn; lia).
  rewrite Em, Ep. unfold int_unsigned.
  rewrite (digit_value_digit c Hc). now apply int_digits_digits.
Qed.

Lemma decimal_value_nonneg (cs : str) :
  Forall (fun c => is_digit c = true) cs -> 0 <= decimal_value cs.
Proof.
  unfold decimal_value.
  assert (G : forall acc, 0 <= acc ->
              Forall (fun c => is_digit c = true) cs ->
              0 <= fold_left (fun a c => 10 * a + (Z.of_N c - 48)) cs acc).
  { induction cs as [|c cs IH]; intros acc Ha H; cbn [fold_left].
    - exact Ha.
    - inversion H as [|? ? Hc Hcs]; subst.
      apply IH; [|exact Hcs].
      apply is_digit_spec in Hc. lia. }
  apply G. lia.
Qed.

Lemma digits_no_char (c : char) (cs : str) :
  is_digit c = false -> Forall (fun x => is_digit x = true) cs ->
  str_contains c cs = false.
Proof.
  intros Hc. induction 1 as [|x cs Hx _ IH].
  - reflexivity.
  - rewrite str_contains_cons, IH, orb_false_r.
    apply N.eqb_neq. intros ->. congruence.
Qed.

Lemma skipn_past (A : Type) (a : list A) (x : A) (r : list A) :
  skipn (List.length a + 1) (a ++ x :: r) = r.
Proof.
  induction a as [|y a IH]; [reflexivity|]. exact IH.
Qed.

Lemma firstn_prefix (A : Type) (a r : list A) :
  firstn (List.length a) (a ++ r) = a.
Proof.
  induction a as [|y a IH]; cbn [List.length firstn app].
  - now destruct r.
  - now rewrite IH.
Qed.

Lemma bracketed_slice (base inner rest : str) :
  str_contains (chr "[") base = false ->
  str_contains (chr "]") base = false ->
  str_contains (chr "]") inner = false ->
  get_array_length (base ++ chr "[" :: inner ++ chr "]" :: rest)
  = int inner.
Proof.
  intros Hb1 Hb2 Hi. unfold get_array_length.
  rewrite str_contains_app, str_contains_cons, N.eqb_refl, orb_true_r.
  rewrite (str_index_app _ _ _ Hb1). cbn [bind].
  change (base ++ chr "[" :: inner ++ chr "]" :: rest)
    with (base ++ [chr "["] ++ inner ++ chr "]" :: rest).
  rewrite !app_assoc.
  rewrite str_index_app.
  2:{ rewrite !str_contains_app, Hb2, Hi. reflexivity. }
  cbn [bind]. f_equal. unfold str_slice.
  rewrite <- !app_assoc. cbn [app].
  rewrite skipn_past.
  rewrite !length_app. cbn [List.length].
  replace (List.length base + S (List.length inner)
           - (List.length base + 1))%nat
    with (List.length inner) by lia.
  apply firstn_prefix.
Qed.

(** X7.  A type string made of a base name without brackets, an opening
    bracket, ASCII digits and a closing bracket resolves to that base
    name and to the number the digits denote in base ten, which is not
    negative; whatever follows the closing bracket is ignored.  (CPython
    refuses literals of more than 4300 digits.) *)
Theorem bracketed_type_string (base cs rest : str) :
  str_contains (chr "[") base = false ->
  str_contains (chr "]") base = false ->
  cs <> [] ->
  Forall (fun c => is_digit c = true) cs ->
  (List.length cs <= 4300)%nat ->
  get_base_type (base ++ chr "[" :: cs ++ chr "]" :: rest) = base
  /\ get_array_length (base ++ chr "[" :: cs ++ chr "]" :: rest)
     = Ok (decimal_value cs)
  /\ 0 <= decimal_value cs.
Proof.
  intros Hb1 Hb2 Hne Hd _.
  assert (Hc : str_contains (chr "[")
                 (base ++ chr "[" :: cs ++ chr "]" :: rest) = true).
  { now rewrite str_contains_app, str_contains_cons, N.eqb_refl,
      orb_true_r. }
  split; [|split].
  - unfold get_base_type.
    destruct (str_eqb _ (pystr "uint8_t_mavlink_version")) eqn:E.
    + apply str_eqb_eq in E. rewrite E in Hc. discriminate.
    + rewrite Hc. now apply str_before_app.
  - rewrite bracketed_slice; try assumption.
    + now apply int_digit_string.
    + now apply digits_no_char.
  - now apply decimal_value_nonneg.
Qed.

Lemma bracketed_type_string_witness :
  get_base_type (pystr "uint8_t[20]") = pystr "uint8_t"
  /\ get_array_length (pystr "uint8_t[20]") = Ok 20.
Proof.
  destruct (bracketed_type_string (pystr "uint8_t") (pystr "20") [])
    as (Hb & Hl & _);
    try reflexivity; try discriminate.
  - repeat constructor.
  - cbn. lia.
  - split; [exact Hb | exact Hl].
Defined.

(** X8.  With an opening bracket in the type string, the length lookup
    raises [ValueError] when there is no closing bracket, and when the
    first closing bracket comes before the opening one or right after
    it. *)
Theorem get_array_length_misplaced_bracket (type_str : str) :
  str_contains (chr "[") type_str = true ->
  (str_contains (chr "]") type_str = false
   \/ exists i e,
        str_index (chr "[") type_str = Ok i
        /\ str_index (chr "]") type_str = Ok e
        /\ (e <= i + 1)%nat) ->
  get_array_length type_str = Raise ValueError.
Proof.
  intros Ho H. unfold get_array_length. rewrite Ho.
  destruct H as [Hc | (i & e & Hi & He & Hle)].
  - destruct (str_index_present _ _ Ho) as [i ->]. cbn [bind].
    now rewrite (str_index_absent _ _ Hc).
  - rewrite Hi, He. cbn [bind]. unfold str_slice.
    replace (e - (i + 1))%nat with 0%nat by lia. reflexivity.
Qed.

Lemma get_array_length_misplaced_bracket_witness :
  get_array_length (pystr "uint8_t[") = Raise ValueError
  /\ get_array_length (pystr "uint8_t[]") = Raise ValueError
  /\ get_array_length (pystr "a]b[3") = Raise ValueError.
Proof.
  split; [|split].
  - apply get_array_length_misplaced_bracket; [reflexivity|].
    left. reflexivity.
  - apply get_array_length_misplaced_bracket; [reflexivity|].
    right. exists 7%nat, 8%nat. repeat split. lia.
  - apply get_array_length_misplaced_bracket; [reflexivity|].
    right. exists 3%nat, 1%nat. repeat split. lia.
Defined.

Lemma not_numeric_spec (c : char) :
  not_numeric c = true ->
  is_space c = false /\ is_digit c = false
  /\ N.eqb c (chr "+") = false /\ N.eqb c (chr "-") = false
  /\ N.eqb c (chr "_") = false.
Proof.
  unfold not_numeric.
  rewrite !andb_true_iff, !negb_true_iff, !N.leb_le.
  intros [[[[[H1 H2] Hd] Hp] Hm] Hu]. repeat split; try assumption.
  destruct (is_space c) eqn:E; [|reflexivity].
  apply is_space_spec in E. lia.
Qed.

Lemma In_lstrip (c : char) (s : str) :
  is_space c = false -> In c s -> In c (lstrip s).
Proof.
  intro Hc. induction s as [|x s IH]; cbn [lstrip]; [tauto|].
  destruct (is_space x) eqn:E; [|tauto].
  intros [->|H]; [congruence | now apply IH].
Qed.

Lemma In_strip (c : char) (s : str) :
  is_space c = false -> In c s -> In c (strip s).
Proof.
  intros Hc H. unfold strip.
  apply -> in_rev. apply In_lstrip; [exact Hc|].
  apply -> in_rev. now apply In_lstrip.
Qed.

Lemma int_digits_not_numeric (c : char) (s : str) :
  not_numeric c = true -> In c s ->
  forall acc, int_digits s acc = Raise ValueError.
Proof.
  intro Hc. destruct (not_numeric_spec c Hc) as (_ & Hd & _ & _ & Hu).
  induction s as [|x s IH]; intros Hin acc; [contradiction|].
  cbn [int_digits].
  destruct (is_digit x) eqn:Ex.
  - rewrite (digit_value_digit x Ex).
    destruct Hin as [->|Hin]; [congruence | now apply IH].
  - rewrite (digit_value_other x Ex).
    destruct (N.eqb x (chr "_")) eqn:Eu; [|reflexivity].
    destruct Hin as [->|Hin]; [congruence|].
    destruct s as [|y s]; [reflexivity|].
    destruct (digit_value y); [now apply IH | reflexivity].
Qed.

Lemma int_unsigned_not_numeric (c : char) (s : str) :
  not_numeric c = true -> In c s -> int_unsigned s = Raise ValueError.
Proof.
  intros Hc Hin. unfold int_unsigned.
  destruct s as [|x s]; [reflexivity|].
  destruct (digit_value x); [|reflexivity].
  now apply (int_digits_not_numeric c).
Qed.

Lemma int_not_numeric (c : char) (s : str) :
  not_numeric c = true -> In c s -> int s = Raise ValueError.
Proof.
  intros Hc Hin.
  destruct (not_numeric_spec c Hc) as (Hs & _ & Hp & Hm & _).
  apply (In_strip c s Hs) in Hin. unfold int.
  destruct (strip s) as [|x t]; [reflexivity|].
  destruct (N.eqb x (chr "-")) eqn:Em.
  - destruct Hin as [->|Hin]; [congruence|].
    now rewrite (int_unsigned_not_numeric c t Hc Hin).
  - destruct (N.eqb x (chr "+")) eqn:Ep.
    + destruct Hin as [->|Hin]; [congruence|].
      now apply (int_unsigned_not_numeric c).
    + now apply (int_unsigned_not_numeric c).
Qed.

(** X9.  When the text between the brackets holds a printable ASCII
    character that is neither a digit, a sign nor an underscore, the
    length lookup raises [ValueError]. *)
Theorem get_array_length_not_numeric (base inner rest : str) (c : char) :
  str_contains (chr "[") base = false ->
  str_contains (chr "]") base = false ->
  str_contains (chr "]") inner = false ->
  In c inner -> not_numeric c = true ->
  get_array_length (base ++ chr "[" :: inner ++ chr "]" :: rest)
  = Raise ValueError.
Proof.
  intros Hb1 Hb2 Hi Hin Hc.
  rewrite bracketed_slice by assumption.
  now apply (int_not_numeric c).
Qed.

Lemma get_array_length_not_numeric_witness :
  get_array_length (pystr "uint8_t[4x]") = Raise ValueError.
Proof.
  apply (get_array_length_not_numeric
           (pystr "uint8_t") (pystr "4x") [] (chr "x"));
    try reflexivity.
  right. left. reflexivity.
Defined.

(** ** The orderer as a rearrangement *)

Lemma filter_partition_perm {A} (p : A -> bool) (l : list A) :
  Permutation l (filter (fun a => negb (p a)) l ++ filter p l).
Proof.
  induction l as [|x l IH]; cbn [filter].
  - reflexivity.
  - destruct (p x); cbn [negb app].
    + now apply Permutation_cons_app.
    + now apply perm_skip.
Qed.

Lemma order_fields_perm (fields : list field) :
  Permutation fields (order_fields_for_serialization fields).
Proof.
  rewrite order_fields_unfold.
  etransitivity; [apply (filter_partition_perm get_extension)|].
  apply Permutation_app_tail, sort_reverse_perm.
Qed.

Lemma sort_reverse_idempotent {A} (key : A -> Z) (l : list A) :
  sort_reverse key (sort_reverse key l) = sort_reverse key l.
Proof.
  apply sort_reverse_classes_eq. intro w. apply class_sort_reverse.
Qed.

Lemma order_fields_idempotent (fields : list field) :
  order_fields_for_serialization (order_fields_for_serialization fields)
  = order_fields_for_serialization fields.
Proof.
  rewrite (order_fields_unfold (order_fields_for_serialization fields)).
  rewrite filter_non_extension_order, filter_extension_order.
  now rewrite sort_reverse_idempotent.
Qed.

(** X10.  The orderer only rearranges: its result has the fields of the
    input, each as often as the input has it, and so the same length. *)
Theorem order_fields_rearranges (fields : list field) :
  Permutation fields (order_fields_for_serialization fields)
  /\ List.length (order_fields_for_serialization fields)
     = List.length fields.
Proof.
  split; [apply order_fields_perm|].
  symmetry. apply Permutation_length, order_fields_perm.
Qed.

(** X11.  The canonical order is a fixed point of the orderer, and
    handing a message over in canonical order changes neither its CRC
    extra nor its layout. *)
Theorem canonical_order_is_fixed (message_name : str) (fields : list field) :
  order_fields_for_serialization (order_fields_for_serialization fields)
  = order_fields_for_serialization fields
  /\ calculate_crc_extra message_name
       (order_fields_for_serialization fields)
     = calculate_crc_extra message_name fields
  /\ calculate_field_offsets (order_fields_for_serialization fields)
     = calculate_field_offsets fields.
Proof.
  split; [apply order_fields_idempotent|].
  unfold calculate_crc_extra, calculate_field_offsets.
  now rewrite order_fields_idempotent.
Qed.

(** ** When the calculators raise *)

Lemma field_offsets_loop_ok (ordered : list field) :
  Forall (fun f => is_ok (get_array_length (type f))) ordered ->
  forall offset, is_ok (field_offsets_loop ordered offset).
Proof.
  induction 1 as [|f l [n Hn] _ IH]; intro offset;
    cbn [field_offsets_loop].
  - now eexists.
  - rewrite Hn. cbn [bind].
    destruct (IH (offset + get_type_size (type f) * n)) as [r ->].
    cbn [bind]. now eexists.
Qed.

Lemma crc_extra_loop_resolves (l : list field) :
  forall crc,
    is_ok (crc_extra_loop l crc) ->
    Forall (fun f => get_extension f = false ->
                     is_ok (get_array_length (type f))) l.
Proof.
  induction l as [|f l IH]; intros crc H; [constructor|].
  cbn [crc_extra_loop] in H.
  destruct (get_extension f) eqn:E.
  - constructor; [intro; congruence | now apply (IH crc)].
  - destruct (get_array_length (type f)) as [n|e] eqn:Hn;
      cbn [bind] in H.
    + constructor; [intros _; now exists n | now apply IH in H].
    + destruct H as [c H]. discriminate.
Qed.

Lemma crc_extra_loop_ok_non_extension (l : list field) :
  Forall (fun f => get_extension f = false ->
                   is_ok (get_array_length (type f))) l ->
  forall crc, is_ok (crc_extra_loop l crc).
Proof.
  induction 1 as [|f l Hf _ IH]; intro crc; cbn [crc_extra_loop].
  - now exists crc.
  - destruct (get_extension f) eqn:E; [apply IH|].
    destruct (Hf eq_refl) as [n ->]. cbn [bind]. apply IH.
Qed.

(** X12.  The layout is computed exactly when the array length of every
    field can be read, and the CRC extra exactly when the array length
    of every non-extension field can be read: an extension field with a
    malformed type fails the layout and not the CRC extra. *)
Theorem calculators_raise_exactly (message_name : str)
        (fields : list field) :
  (is_ok (calculate_field_offsets fields)
   <-> Forall (fun f => is_ok (get_array_length (type f))) fields)
  /\ (is_ok (calculate_crc_extra message_name fields)
      <-> Forall (fun f => get_extension f = false ->
                           is_ok (get_array_length (type f))) fields).
Proof.
  split; split.
  - intro H. apply calculate_field_offsets_resolves in H.
    eapply Permutation_Forall; [|exact H].
    symmetry. apply order_fields_perm.
  - intro H. unfold calculate_field_offsets.
    destruct (field_offsets_loop_ok
                (order_fields_for_serialization fields)) with (offset := 0)
      as [r Hr].
    + eapply Permutation_Forall; [apply order_fields_perm | exact H].
    + rewrite Hr. cbn [bind]. now eexists.
  - intro H. unfold calculate_crc_extra in H.
    destruct (crc_extra_loop _ _) as [c|e] eqn:Hc; cbn [bind] in H.
    + eapply Permutation_Forall; [symmetry; apply order_fields_perm|].
      eapply crc_extra_loop_resolves. rewrite Hc. now eexists.
    + destruct H as [v H]. discriminate.
  - intro H. unfold calculate_crc_extra.
    destruct (crc_extra_loop_ok_non_extension
                (order_fields_for_serialization fields)) with
      (crc := accumulate_string (message_name ++ pystr " ") 0xFFFF)
      as [c Hc].
    + eapply Permutation_Forall; [apply order_fields_perm | exact H].
    + rewrite Hc. cbn [bind]. now eexists.
Qed.

(** X13.  A computed layout has one entry for each field of the input:
    its fields are a rearrangement of the input. *)
Theorem calculate_field_offsets_keeps_fields
        (fields : list field) (rs : list resolved_field) :
  calculate_field_offsets fields = Ok rs ->
  Permutation fields (map rf_field rs)
  /\ List.length rs = List.length fields.
Proof.
  intro H. apply calculate_field_offsets_fields in H.
  split.
  - rewrite H. apply order_fields_perm.
  - rewrite <- (length_map rf_field), H.
    symmetry. apply Permutation_length, order_fields_perm.
Qed.

Lemma calculate_field_offsets_keeps_fields_witness :
  exists rs,
    calculate_field_offsets heartbeat_fields = Ok rs
    /\ Permutation heartbeat_fields (map rf_field rs)
    /\ List.length rs = 6%nat.
Proof.
  eexists. split; [vm_compute; reflexivity|].
  match goal with
  | |- Permutation _ (map _ ?rs) /\ _ =>
      exact (calculate_field_offsets_keeps_fields heartbeat_fields rs
               eq_refl)
  end.
Defined.

(** ** Alignment *)

Lemma size_divides (f g : field) :
  bits g <= bits f ->
  (get_type_size (type g) | get_type_size (type f)).
Proof.
  unfold bits, get_type_size.
  destruct (get_type_bits_values (type f)) as [F|[F|[F|F]]];
    destruct (get_type_bits_values (type g)) as [G|[G|[G|G]]];
    rewrite F, G; intro H; try lia;
    match goal with
    | |- (?b | ?a) => exists (a / b); now vm_compute
    end.
Qed.

Lemma field_offsets_loop_aligned (ordered : list field) :
  descending bits ordered ->
  forall offset rs final,
    field_offsets_loop ordered offset = Ok (rs, final) ->
    (forall f, In f ordered -> (get_type_size (type f) | offset)) ->
    Forall (fun r => (rf_size r | rf_offset r)) rs.
Proof.
  unfold descending.
  induction 1 as [|f rest _ IH Hf]; intros offset rs final H Hd;
    cbn [field_offsets_loop] in H.
  - inversion H; subst. constructor.
  - destruct (get_array_length (type f)) as [n|e]; cbn [bind] in H;
      [|discriminate].
    destruct (field_offsets_loop rest _) as [[rs' final']|e] eqn:Hl;
      cbn [bind fst snd] in H; [|discriminate].
    inversion H; subst; clear H.
    constructor.
    + cbn [rf_size rf_offset]. apply Hd. now left.
    + apply (IH _ _ _ Hl). intros g Hg.
      apply Z.divide_add_r; [apply Hd; now right|].
      apply Z.divide_mul_l. apply size_divides.
      rewrite Forall_forall in Hf. now apply Hf.
Qed.

Lemma field_offsets_loop_app (a b : list field) :
  forall offset rs final,
    field_offsets_loop (a ++ b) offset = Ok (rs, final) ->
    exists ra mid rb,
      field_offsets_loop a offset = Ok (ra, mid)
      /\ field_offsets_loop b mid = Ok (rb, final)
      /\ rs = ra ++ rb.
Proof.
  induction a as [|f a IH]; intros offset rs final H.
  - exists [], offset, rs. now repeat split.
  - cbn [app field_offsets_loop] in *.
    destruct (get_array_length (type f)) as [n|e]; cbn [bind] in *;
      [|discriminate].
    destruct (field_offsets_loop (a ++ b) _) as [[rs' final']|e] eqn:Hl;
      cbn [bind fst snd] in H; [|discriminate].
    inversion H; subst; clear H.
    destruct (IH _ _ _ Hl) as (ra & mid & rb & Ha & Hb & ->).
    rewrite Ha. cbn [bind fst snd].
    now exists ({| rf_field := f; rf_offset := offset;
                   rf_size := get_type_size (type f);
                   rf_array_length := n;
                   rf_base_type := get_base_type (type f) |} :: ra),
               mid, rb.
Qed.

(** X14.  In a computed layout every non-extension field starts at a
    multiple of the size of its element type: sorting by width keeps the
    fields naturally aligned, whatever their array lengths are. *)
Theorem non_extension_fields_aligned
        (fields : list field) (rs : list resolved_field) :
  calculate_field_offsets fields = Ok rs ->
  forall r, In r rs -> get_extension (rf_field r) = false ->
            (rf_size r | rf_offset r).
Proof.
  intros H r Hr He.
  destruct (calculate_field_offsets_loop _ _ H) as [final Hl].
  rewrite order_fields_unfold in Hl.
  destruct (field_offsets_loop_app _ _ _ _ _ Hl)
    as (ra & mid & rb & Ha & Hb & ->).
  apply in_app_or in Hr. destruct Hr as [Hr|Hr].
  - assert (A : Forall (fun r => (rf_size r | rf_offset r)) ra).
    { eapply field_offsets_loop_aligned;
        [apply sort_reverse_descending | exact Ha |].
      intros f _. apply Z.divide_0_r. }
    rewrite Forall_forall in A. now apply A.
  - exfalso.
    destruct (field_offsets_loop_spec _ _ _ _ Hb) as (Hm & _).
    assert (I : In (rf_field r) (filter get_extension fields)).
    { rewrite <- Hm. now apply in_map. }
    apply filter_In in I. destruct I as [_ I]. congruence.
Qed.

Lemma non_extension_fields_aligned_witness :
  exists rs,
    calculate_field_offsets sys_status_fields = Ok rs
    /\ forall r, In r rs -> get_extension (rf_field r) = false ->
                 (rf_size r | rf_offset r).
Proof.
  eexists. split; [vm_compute; reflexivity|].
  match goal with
  | |- forall r, In r ?rs -> _ =>
      exact (non_extension_fields_aligned sys_status_fields rs eq_refl)
  end.
Defined.

(** ** The CRC extra as the CRC of a text *)

Lemma accumulate_length_byte (n crc : Z) :
  accumulate_string (length_byte n) crc
  = if n >? 1 then accumulate_byte n crc else crc.
Proof.
  unfold length_byte. destruct (n >? 1); [|reflexivity].
  cbn [accumulate_string]. unfold ord.
  rewrite Z2N.id by (apply Z.mod_pos_bound; lia).
  symmetry. apply accumulate_byte_mod.
Qed.

Lemma crc_extra_loop_text (l : list field) :
  forall crc,
    crc_extra_loop l crc
    = (t <- crc_extra_text l ;; Ok (accumulate_string t crc)).
Proof.
  induction l as [|f l IH]; intro crc;
    cbn [crc_extra_loop crc_extra_text].
  - reflexivity.
  - destruct (get_extension f); [apply IH|].
    destruct (get_array_length (type f)) as [n|e]; cbn [bind];
      [|reflexivity].
    rewrite IH.
    destruct (crc_extra_text l) as [t|e]; cbn [bind]; [|reflexivity].
    f_equal.
    rewrite !accumulate_string_app, accumulate_length_byte.
    reflexivity.
Qed.

(** X15.  The CRC extra is the 8-bit fold of the accumulator run from
    [0xFFFF] over one text: the message name, a space, and for each
    non-extension field in canonical order its base type, a space, its
    name, a space and, for an array, the length as one character.  When
    that text is made of byte-sized characters, it is the fold of
    [crc16_mcrf4xx] over those bytes. *)
Theorem calculate_crc_extra_as_text (message_name : str)
        (fields : list field) :
  calculate_crc_extra message_name fields
  = (t <- crc_extra_text (order_fields_for_serialization fields) ;;
     Ok (fold8 (accumulate_string (message_name ++ pystr " " ++ t) 0xFFFF)))
  /\ forall t data,
       crc_extra_text (order_fields_for_serialization fields) = Ok t ->
       latin1 data = message_name ++ pystr " " ++ t ->
       calculate_crc_extra message_name fields
       = Ok (fold8 (crc16_mcrf4xx data 0xFFFF)).
Proof.
  assert (H : calculate_crc_extra message_name fields
              = (t <- crc_extra_text
                        (order_fields_for_serialization fields) ;;
                 Ok (fold8 (accumulate_string
                              (message_name ++ pystr " " ++ t) 0xFFFF)))).
  { unfold calculate_crc_extra. rewrite crc_extra_loop_text.
    destruct (crc_extra_text _) as [t|e]; cbn [bind]; [|reflexivity].
    now rewrite !accumulate_string_app. }
  split; [exact H|].
  intros t data Ht Hd. rewrite H, Ht. cbn [bind].
  now rewrite <- Hd, accumulate_string_bytes.
Qed.

Lemma calculate_crc_extra_as_text_witness :
  calculate_crc_extra (pystr "HEARTBEAT") heartbeat_fields
  = Ok (fold8 (crc16_mcrf4xx
                 (list_byte_of_string
                    ("HEARTBEAT uint32_t custom_mode uint8_t type "
                     ++ "uint8_t autopilot uint8_t base_mode "
                     ++ "uint8_t system_status uint8_t mavlink_version "))
                 0xFFFF)).
Proof.
  eapply (proj2 (calculate_crc_extra_as_text
                   (pystr "HEARTBEAT") heartbeat_fields));
    vm_compute; reflexivity.
Defined.

(** ** The generator and the calculator *)

Lemma type_sizes_are_bytes (base_type : str) :
  dict_get Generator.type_sizes base_type 1
  = dict_get TYPE_BITS base_type 8 / 8.
Proof.
  unfold Generator.type_sizes, TYPE_BITS. cbn [dict_get].
  repeat (destruct (str_eqb _ base_type); [reflexivity|]).
  reflexivity.
Qed.

(** X16.  The generator and the calculator resolve a type string alike:
    the base type and the size [build_field_json] writes are the ones
    [get_base_type] and [get_type_size] give for the type of the field,
    so the size is 1, 2, 4 or 8, and 1 for an unknown type. *)
Theorem build_field_json_agrees (field : Generator.MAVField) :
  Generator.j_base_type (Generator.build_field_json field)
  = get_base_type (Generator.mf_type field)
  /\ Generator.j_size (Generator.build_field_json field)
     = get_type_size (Generator.mf_type field)
  /\ In (Generator.j_size (Generator.build_field_json field)) [1; 2; 4; 8].
Proof.
  assert (H : Generator.j_size (Generator.build_field_json field)
              = get_type_size (Generator.mf_type field)).
  { cbn [Generator.build_field_json Generator.j_size].
    unfold get_type_size, get_type_bits.
    apply type_sizes_are_bytes. }
  split; [reflexivity|]. split; [exact H|].
  rewrite H. unfold get_type_size.
  destruct (get_type_bits_values (Generator.mf_type field))
    as [E|[E|[E|E]]]; rewrite E; cbn; intuition.
Qed.

(** ** Enum entries *)

Lemma str_eqb_refl (a : str) : str_eqb a a = true.
Proof. now apply str_eqb_eq. Qed.

Lemma str_eqb_neq (a b : str) : a <> b -> str_eqb a b = false.
Proof.
  intro H. destruct (str_eqb a b) eqn:E; [|reflexivity].
  now apply str_eqb_eq in E.
Qed.

Lemma dict_lookup_set_same {V} (d : list (str * V)) (k : str) (v : V) :
  dict_lookup (dict_set d k v) k = Some v.
Proof.
  induction d as [|[k' v'] d IH]; cbn [dict_set dict_lookup].
  - now rewrite str_eqb_refl.
  - destruct (str_eqb k' k) eqn:E; cbn [dict_lookup]; now rewrite E.
Qed.

Lemma dict_lookup_set_other {V} (d : list (str * V)) (k k' : str) (v : V) :
  k <> k' -> dict_lookup (dict_set d k v) k' = dict_lookup d k'.
Proof.
  intro H. induction d as [|[k0 v0] d IH]; cbn [dict_set dict_lookup].
  - now rewrite str_eqb_neq.
  - destruct (str_eqb k0 k) eqn:E; cbn [dict_lookup].
    + apply str_eqb_eq in E. subst k0. now rewrite str_eqb_neq.
    + now rewrite IH.
Qed.

Lemma str_of_uint_digits (u : Decimal.uint) :
  Forall (fun c => is_digit c = true) (str_of_uint u).
Proof. induction u; cbn [str_of_uint]; now constructor. Qed.

Lemma str_of_uint_inj (u v : Decimal.uint) :
  str_of_uint u = str_of_uint v -> u = v.
Proof.
  revert v. induction u; intros [] H; cbn [str_of_uint] in H;
    try discriminate; try reflexivity;
    inversion H as [H']; f_equal; auto.
Qed.

Lemma str_of_int_inj (a b : Z) : str_of_int a = str_of_int b -> a = b.
Proof.
  unfold str_of_int. intro H.
  rewrite <- (DecimalZ.of_to a), <- (DecimalZ.of_to b).
  destruct (Z.to_int a) as [u|u], (Z.to_int b) as [v|v].
  - now rewrite (str_of_uint_inj _ _ H).
  - pose proof (str_of_uint_digits u) as D. rewrite H in D.
    inversion D; discriminate.
  - pose proof (str_of_uint_digits v) as D. rewrite <- H in D.
    inversion D; discriminate.
  - inversion H as [H']. now rewrite (str_of_uint_inj _ _ H').
Qed.

Section EnumEntries.
Import Generator.

Let step (entries : list (str * entry_json)) (entry : MAVEnumEntry) :=
  dict_set entries (str_of_int (me_value entry)) (entry_dict entry).

Let key_of (entry : MAVEnumEntry) : str * entry_json :=
  (str_of_int (me_value entry), entry_dict entry).

Lemma find_app {A} (p : A -> bool) (a b : list A) :
  find p (a ++ b) = match find p a with
                    | Some x => Some x
                    | None => find p b
                    end.
Proof.
  induction a as [|x a IH]; cbn [app find]; [reflexivity|].
  now destruct (p x).
Qed.

Lemma entries_lookup (l : list MAVEnumEntry) :
  forall d v,
    dict_lookup (fold_left step l d) (str_of_int v)
    = match find (fun e => me_value e =? v) (rev l) with
      | Some e => Some (entry_dict e)
      | None => dict_lookup d (str_of_int v)
      end.
Proof.
  induction l as [|e l IH]; intros d v; cbn [fold_left rev].
  - reflexivity.
  - rewrite IH, find_app. cbn [find].
    destruct (find _ (rev l)); [reflexivity|].
    unfold step. destruct (Z.eqb_spec (me_value e) v) as [->|Hne].
    + apply dict_lookup_set_same.
    + apply dict_lookup_set_other. intro H. now apply str_of_int_inj in H.
Qed.

Lemma dict_set_keys {V} (d : list (str * V)) (k : str) (v : V) :
  map fst (dict_set d k v)
  = if existsb (fun k' => str_eqb k' k) (map fst d) then map fst d
    else map fst d ++ [k].
Proof.
  induction d as [|[k0 v0] d IH]; cbn [dict_set map fst existsb app].
  - reflexivity.
  - destruct (str_eqb k0 k) eqn:E; cbn [map fst orb]; [reflexivity|].
    rewrite IH. now destruct (existsb _ (map fst d)).
Qed.

Lemma existsb_str_eqb (k : str) (ks : list str) :
  existsb (fun k' => str_eqb k' k) ks = true <-> In k ks.
Proof.
  rewrite existsb_exists. split.
  - intros (x & Hx & E). apply str_eqb_eq in E. now subst.
  - intro H. exists k. split; [exact H | apply str_eqb_refl].
Qed.

Lemma dict_set_NoDup {V} (d : list (str * V)) (k : str) (v : V) :
  NoDup (map fst d) -> NoDup (map fst (dict_set d k v)).
Proof.
  intro H. rewrite dict_set_keys.
  destruct (existsb _ (map fst d)) eqn:E; [exact H|].
  apply NoDup_app; [exact H | repeat constructor; tauto |].
  intros x Hx [<-|[]].
  apply existsb_str_eqb in Hx. congruence.
Qed.

Lemma dict_set_length {V} (d : list (str * V)) (k : str) (v : V) :
  (List.length (dict_set d k v) <= S (List.length d))%nat.
Proof.
  induction d as [|[k0 v0] d IH]; cbn [dict_set List.length]; [lia|].
  destruct (str_eqb k0 k); cbn [List.length]; lia.
Qed.

Lemma dict_set_new {V} (d : list (str * V)) (k : str) (v : V) :
  ~ In k (map fst d) -> dict_set d k v = d ++ [(k, v)].
Proof.
  induction d as [|[k0 v0] d IH]; cbn [dict_set map fst In app];
    [reflexivity|].
  intro H. rewrite str_eqb_neq by tauto. now rewrite IH by tauto.
Qed.

Lemma entries_fold_facts (l : list MAVEnumEntry) :
  forall d,
    NoDup (map fst d) ->
    NoDup (map fst (fold_left step l d))
    /\ (List.length (fold_left step l d)
        <= List.length d + List.length l)%nat.
Proof.
  induction l as [|e l IH]; intros d H; cbn [fold_left List.length].
  - split; [exact H | lia].
  - destruct (IH (step d e)) as [N L].
    + now apply dict_set_NoDup.
    + split; [exact N|].
      pose proof (dict_set_length d (str_of_int (me_value e))
                    (entry_dict e)).
      unfold step in L |- *. lia.
Qed.

Lemma entries_fold_distinct (l : list MAVEnumEntry) :
  forall d,
    NoDup (map me_value l) ->
    (forall e, In e l -> ~ In (str_of_int (me_value e)) (map fst d)) ->
    fold_left step l d = d ++ map key_of l.
Proof.
  induction l as [|e l IH]; intros d N D; cbn [fold_left map].
  - now rewrite app_nil_r.
  - inversion N as [|? ? Hn N']; subst.
    unfold step at 2. rewrite dict_set_new by (apply D; now left).
    rewrite IH; [now rewrite <- app_assoc | exact N' |].
    intros e' He'. rewrite map_app, in_app_iff. cbn [map fst In].
    intros [H|[H|[]]].
    + apply (D e'); [now right | exact H].
    + apply str_of_int_inj in H. apply Hn. rewrite H.
      now apply in_map.
Qed.

(** X17.  In the dictionary [build_enum_json] builds, the key [str(v)]
    holds the last entry of the enum whose value is [v], and no key when
    the enum has no such entry: of two entries with one value, the
    earlier is lost. *)
Theorem build_enum_json_last_wins (enum : MAVEnum) (v : Z) :
  dict_lookup (nj_entries (build_enum_json enum)) (str_of_int v)
  = option_map entry_dict
      (find (fun e => me_value e =? v) (rev (en_entry enum))).
Proof.
  cbn [build_enum_json nj_entries].
  change (fold_left _ (en_entry enum) [])
    with (fold_left step (en_entry enum) []).
  rewrite entries_lookup. now destruct (find _ _).
Qed.

(** X18.  The keys of that dictionary are distinct and there are at
    most as many as the enum has entries; when the values of the entries
    are distinct, the dictionary has every entry, under the key of its
    value, in the order of the enum. *)
Theorem build_enum_json_entries (enum : MAVEnum) :
  NoDup (map fst (nj_entries (build_enum_json enum)))
  /\ (List.length (nj_entries (build_enum_json enum))
      <= List.length (en_entry enum))%nat
  /\ (NoDup (map me_value (en_entry enum)) ->
      nj_entries (build_enum_json enum)
      = map (fun e => (str_of_int (me_value e), entry_dict e))
            (en_entry enum)).
Proof.
  cbn [build_enum_json nj_entries].
  change (fold_left _ (en_entry enum) [])
    with (fold_left step (en_entry enum) []).
  destruct (entries_fold_facts (en_entry enum) []) as [N L];
    [constructor|].
  split; [exact N|]. split; [exact L|].
  intro D. now rewrite entries_fold_distinct.
Qed.

End EnumEntries.

Lemma build_enum_json_entries_witness :
  Generator.nj_entries (Generator.build_enum_json sample_enum)
  = map (fun e => (str_of_int (Generator.me_value e),
                   Generator.entry_dict e))
        (Generator.en_entry sample_enum).
Proof.
  apply (proj2 (proj2 (build_enum_json_entries sample_enum))).
  cbn. repeat constructor; cbn; intuition discriminate.
Defined.

(** ** Bounds of the layout *)

Lemma encoded_length_firstn_nonneg (rs : list resolved_field) :
  (forall r, In r rs -> 0 <= extent r) ->
  forall k, 0 <= encoded_length (firstn k rs).
Proof.
  induction rs as [|b rs IH]; intros Hpos [|k]; cbn; try lia.
  assert (0 <= extent b) by (apply Hpos; now left).
  assert (0 <= encoded_length (firstn k rs)); [|lia].
  apply IH. intros r Hr. apply Hpos. now right.
Qed.

Lemma resolved_extent_nonneg (rs : list resolved_field) :
  Forall resolves rs ->
  (forall r, In r rs -> 0 <= rf_array_length r) ->
  forall r, In r rs -> 0 <= extent r.
Proof.
  intros Hr Hpos r Hin. unfold extent.
  rewrite Forall_forall in Hr. destruct (Hr _ Hin) as (_ & Hs & _).
  pose proof (get_type_size_pos (type (rf_field r))).
  specialize (Hpos _ Hin). nia.
Qed.

(** X19.  In a computed layout without negative array length, every
    field lies inside the message: its offset is not negative and its
    last byte comes before the encoded length. *)
Theorem layout_within_encoded_length
        (fields : list field) (rs : list resolved_field) :
  calculate_field_offsets fields = Ok rs ->
  (forall r, In r rs -> 0 <= rf_array_length r) ->
  forall r, In r rs ->
    0 <= rf_offset r /\ rf_offset r + extent r <= encoded_length rs.
Proof.
  intros H Hpos r Hin.
  destruct (calculate_field_offsets_loop _ _ H) as [final Hl].
  destruct (field_offsets_loop_spec _ _ _ _ Hl) as (_ & Hr & _ & Ho).
  pose proof (resolved_extent_nonneg rs Hr Hpos) as He.
  destruct (In_nth_error _ _ Hin) as [i Hi].
  rewrite (Ho _ _ Hi). cbn. split.
  - now apply encoded_length_firstn_nonneg.
  - assert (Hlt : (i < List.length rs)%nat).
    { apply nth_error_Some. congruence. }
    pose proof (encoded_length_firstn_le rs He i (List.length rs) r
                  Hlt Hi) as B.
    now rewrite firstn_all in B.
Qed.

Lemma layout_within_encoded_length_witness :
  exists rs,
    calculate_field_offsets heartbeat_fields = Ok rs
    /\ encoded_length rs = 9
    /\ forall r, In r rs ->
         0 <= rf_offset r /\ rf_offset r + extent r <= encoded_length rs.
Proof.
  eexists. split; [vm_compute; reflexivity|].
  split; [reflexivity|].
  match goal with
  | |- forall r, In r ?rs -> _ =>
      apply (layout_within_encoded_length heartbeat_fields rs eq_refl)
  end.
  intros r Hr. cbn in Hr.
  repeat (destruct Hr as [<-|Hr]; [cbn; lia|]). contradiction.
Defined.

(** ** The encoded length and the declaration order *)

(** Bytes a field takes, read off its type string. *)
Lemma encoded_length_by_field (rs : list resolved_field) :
  Forall resolves rs ->
  encoded_length rs
  = fold_right
      (fun f acc =>
         match get_array_length (type f) with
         | Ok n => get_type_size (type f) * n
         | Raise _ => 0
         end + acc)
      0 (map rf_field rs).
Proof.
  induction 1 as [|r rs (_ & Hs & Hn) _ IH];
    cbn [encoded_length map fold_right].
  - reflexivity.
  - rewrite Hn, IH. unfold extent. now rewrite Hs.
Qed.

Lemma fold_right_sum_perm {A} (g : A -> Z) (l l' : list A) :
  Permutation l l' ->
  fold_right (fun a acc => g a + acc) 0 l
  = fold_right (fun a acc => g a + acc) 0 l'.
Proof.
  induction 1; cbn [fold_right]; lia.
Qed.

(** X20.  The encoded length does not depend on the declaration order:
    the layouts of a field list and of any rearrangement of it, when
    computed, have the same encoded length, even where the offsets
    differ. *)
Theorem encoded_length_order_independent
        (fields fields' : list field) (rs rs' : list resolved_field) :
  Permutation fields fields' ->
  calculate_field_offsets fields = Ok rs ->
  calculate_field_offsets fields' = Ok rs' ->
  encoded_length rs = encoded_length rs'.
Proof.
  intros P H H'.
  destruct (calculate_field_offsets_loop _ _ H) as [final Hl].
  destruct (calculate_field_offsets_loop _ _ H') as [final' Hl'].
  destruct (field_offsets_loop_spec _ _ _ _ Hl) as (Hm & Hr & _).
  destruct (field_offsets_loop_spec _ _ _ _ Hl') as (Hm' & Hr' & _).
  rewrite (encoded_length_by_field rs Hr),
          (encoded_length_by_field rs' Hr'), Hm, Hm'.
  apply (fold_right_sum_perm
           (fun f => match get_array_length (type f) with
                     | Ok n => get_type_size (type f) * n
                     | Raise _ => 0
                     end)).
  rewrite <- (order_fields_perm fields), <- (order_fields_perm fields').
  exact P.
Qed.

Lemma encoded_length_order_independent_witness :
  exists rs rs',
    calculate_field_offsets heartbeat_fields = Ok rs
    /\ calculate_field_offsets (rev heartbeat_fields) = Ok rs'
    /\ rs <> rs'
    /\ encoded_length rs = encoded_length rs'.
Proof.
  eexists. eexists.
  split; [vm_compute; reflexivity|].
  split; [vm_compute; reflexivity|].
  split; [discriminate|].
  match goal with
  | |- encoded_length ?rs = encoded_length ?rs' =>
      apply (encoded_length_order_independent
               heartbeat_fields (rev heartbeat_fields) rs rs')
  end.
  - apply Permutation_rev.
  - reflexivity.
  - reflexivity.
Defined.

Lemma calculators_raise_exactly_witness :
  is_ok (calculate_crc_extra (pystr "M") malformed_extension_fields)
  /\ ~ is_ok (calculate_field_offsets malformed_extension_fields).
Proof.
  destruct (calculators_raise_exactly (pystr "M")
              malformed_extension_fields) as [[Hl _] [_ Hc]].
  split.
  - apply Hc. repeat constructor.
    + intros _. now exists 1.
    + discriminate.
  - intro H. apply Hl in H.
    inversion H as [|? ? _ H']; subst.
    inversion H' as [|? ? [n Hn] _]; subst.
    vm_compute in Hn. discriminate.
Defined.
